(** * Verification of the atlas packer of [generate_atlas.py]

    The development embeds [pack_images] (size estimation, shelf packing,
    resolution of the square power-of-two sheet, composition of the pixels)
    as Rocq functions and proves the properties of the specification
    against them.

    Python integers are unbounded and are modelled by [Z].  The estimate of
    the sheet width goes through [math.sqrt], which works on IEEE-754
    binary64 numbers: it is modelled with the executable specification of
    floating-point arithmetic of the standard library ([SpecFloat]), rounding
    included.  Exceptions are modelled by an error monad.  Memory is not
    bounded: [Image.new] returns a sheet of any size, and the failures of
    the allocation inside the imaging library (a side that does not fit a C
    integer, a lack of memory) are not modelled.  What is proved about the
    result of [pack_images] is therefore stated for the calls that return.

    [main] and [find_msdfgen] are embedded over a record of what they read
    from the environment (file system, platform, outcome of the rasterizer
    runs and of the writes); the metadata is a finite map from names to
    rectangles. *)

From Stdlib Require Import ZArith Lia Sorted.
From Stdlib.Strings Require Import Byte.
From Stdlib Require Import Floats.SpecFloat.
From stdpp Require Import base list gmap strings.

Local Open Scope Z_scope.

(** ** Exceptions *)

Module Py.

(** The exceptions that the expressions of [pack_images] can raise. *)
Inductive exn : Set :=
| ValueError      (* math domain error: square root of a negative number *)
| OverflowError   (* int too large to convert to float *)
| TypeError       (* unpacking [None] *)
| IndexError.     (* list index out of range *)

Inductive result (A : Type) : Type :=
| Ok (a : A)
| Raise (e : exn).
Arguments Ok {A} a.
Arguments Raise {A} e.

Definition bind {A B} (r : result A) (k : A -> result B) : result B :=
  match r with
  | Ok a => k a
  | Raise e => Raise e
  end.


End Py.
Import Py.

#[global] Instance result_ret : MRet result := @Ok.
#[global] Instance result_bind : MBind result := fun A B k r => bind r k.

(** ** Integers: [int.bit_length] and [<<] *)

(** [x.bit_length()]: the number of bits of the absolute value of [x],
    and [0] for [0]. *)
Definition bit_length (x : Z) : Z :=
  match x with
  | Z0 => 0
  | Zpos p | Zneg p => Z.log2 (Zpos p) + 1
  end.

(** [1 << (n - 1).bit_length()], the rounding to a power of two that
    [pack_images] applies twice. *)
Definition round_pow2 (n : Z) : Z := Z.shiftl 1 (bit_length (n - 1)).

(** ** Floating point: [math.sqrt] and [math.ceil] on binary64 *)

Definition dbl_prec : Z := 53.
Definition dbl_emax : Z := 1024.

(** Conversion of a Python integer to a float: correctly rounded (to nearest,
    ties to even); an integer beyond the range of doubles raises
    [OverflowError]. *)
Definition float_of_int (n : Z) : result spec_float :=
  match binary_normalize dbl_prec dbl_emax n 0 false with
  | S754_infinity _ => Raise OverflowError
  | f => Ok f
  end.

(** [math.sqrt(n)] for an integer [n]: the argument is converted to a double
    and the correctly rounded square root is taken; a negative argument
    raises [ValueError]. *)
Definition math_sqrt (n : Z) : result spec_float :=
  x ← float_of_int n;
  match SFsqrt dbl_prec dbl_emax x with
  | S754_nan => Raise ValueError
  | r => Ok r
  end.

(** [math.ceil(x)] for a float [x]: the exact smallest integer that is not
    below [x]. *)
Definition math_ceil (x : spec_float) : result Z :=
  match x with
  | S754_zero _ => Ok 0
  | S754_finite s m e =>
      let num := if s then Zneg m else Zpos m in
      Ok (if 0 <=? e then num * 2 ^ e else - ((- num) / 2 ^ (- e)))
  | S754_infinity _ => Raise OverflowError
  | S754_nan => Raise ValueError
  end.

(** ** Images (the part of [PIL.Image] that [pack_images] uses) *)

Definition RGBA : Type := byte * byte * byte * byte.

Definition transparent : RGBA := (x00, x00, x00, x00).

(** An image has a size and a row-major buffer of [width * height] texels. *)
Record Image : Type := mkImage {
  width : Z;
  height : Z;
  pixels : list RGBA
}.

Definition wf_image (img : Image) : Prop :=
  0 <= width img /\ 0 <= height img /\
  Z.of_nat (length (pixels img)) = width img * height img.

(** [Image.new("RGBA", (w, h), color)], for an allocation that succeeds: the
    library can refuse a size ([OverflowError], [MemoryError]), which is not
    modelled. *)
Definition Image_new (w h : Z) (color : RGBA) : Image :=
  mkImage w h (replicate (Z.to_nat (w * h)) color).

#[global] Instance Image_inhabited : Inhabited Image :=
  populate (Image_new 0 0 transparent).

(** The texel [(i, j)] lies in the rectangle of size [w * h] at [(x, y)]. *)
Definition in_rect (x y w h i j : Z) : bool :=
  (x <=? i) && (i <? x + w) && (y <=? j) && (j <? y + h).

(** [img.getpixel((i, j))]; [None] outside of the image. *)
Definition getpixel (img : Image) (i j : Z) : option RGBA :=
  if (0 <=? i) && (i <? width img) && (0 <=? j) && (j <? height img)
  then pixels img !! Z.to_nat (j * width img + i)
  else None.

(** [atlas.paste(img, (x, y))]: the texels of [img] replace those of the
    region of [atlas] with upper left corner [(x, y)]; what falls outside of
    [atlas] is clipped.  There is no mask, hence no blending. *)
Definition paste (atlas img : Image) (x y : Z) : Image :=
  mkImage (width atlas) (height atlas)
    (imap (fun k old =>
             let i := Z.of_nat k mod width atlas in
             let j := Z.of_nat k / width atlas in
             if in_rect x y (width img) (height img) i j
             then default old (getpixel img (i - x) (j - y))
             else old)
          (pixels atlas)).

(** [sheet.crop((x, y, x + w, y + h))]: the sub-rectangle of size [w * h] at
    [(x, y)]; texels outside of [sheet] read as transparent. *)
Definition crop (sheet : Image) (x y w h : Z) : Image :=
  mkImage w h
    (map (fun k =>
            let i := Z.of_nat k mod w in
            let j := Z.of_nat k / w in
            default transparent (getpixel sheet (x + i) (y + j)))
         (seq 0 (Z.to_nat (w * h)))).

(** ** [sorted(..., key=..., reverse=True)] *)

(** Python's [sorted] is stable, also with [reverse=True]: elements with
    equal keys keep their original order.  It is modelled by a stable
    insertion sort into descending order of the keys. *)
Fixpoint insert_desc (key : nat -> Z) (i : nat) (l : list nat) : list nat :=
  match l with
  | [] => [i]
  | j :: l' =>
      if key i <? key j then j :: insert_desc key i l' else i :: j :: l'
  end.

Definition sorted_desc (key : nat -> Z) (l : list nat) : list nat :=
  foldr (insert_desc key) [] l.

(** ** [pack_images] *)

Definition Position : Type := Z * Z.

(** The variables of the packing loop. *)
Record shelf : Type := mkShelf {
  current_x : Z;
  current_y : Z;
  row_height : Z;
  positions : list (option Position)
}.

Section Packing.

Variable images : list Image.
Variable padding : Z.

(** [sorted(range(len(images)), key=lambda i: images[i].height, reverse=True)] *)
Definition sorted_indices : list nat :=
  sorted_desc (fun i => height (images !!! i)) (seq 0 (length images)).

(** [sum((img.width + padding) * (img.height + padding) for img in images)] *)
Definition total_area : Z :=
  foldr Z.add 0
    (map (fun img => (width img + padding) * (height img + padding)) images).

(** [int(math.ceil(math.sqrt(total_area)))] followed by the rounding to a
    power of two. *)
Definition estimate_width : result Z :=
  r ← math_sqrt total_area;
  c ← math_ceil r;
  Ok (round_pow2 c).

(** The state before the loop. *)
Definition shelf_init : shelf :=
  mkShelf padding padding 0 (replicate (length images) None).

(** One iteration of [for idx in sorted_indices].  The indices come from
    [range(len(images))], so [images[idx]] is always defined. *)
Definition place (atlas_width : Z) (st : shelf) (idx : nat) : shelf :=
  let img := images !!! idx in
  let '(cx, cy, rh) :=
    if current_x st + width img + padding >? atlas_width
    then (padding, current_y st + (row_height st + padding), 0)
    else (current_x st, current_y st, row_height st) in
  mkShelf (cx + (width img + padding)) cy (Z.max rh (height img))
          (<[idx := Some (cx, cy)]> (positions st)).

Definition shelf_pack (atlas_width : Z) : shelf :=
  fold_left (place atlas_width) sorted_indices shelf_init.

(** [1 << (max(atlas_width, atlas_height) - 1).bit_length()] *)
Definition final_size (atlas_width : Z) (st : shelf) : Z :=
  let atlas_height := current_y st + row_height st + padding in
  round_pow2 (Z.max atlas_width atlas_height).

End Packing.

(** [for idx, img in enumerate(images): x, y = positions[idx];
    atlas.paste(img, (x, y))] *)
Fixpoint compose (atlas : Image) (images : list Image)
    (pos : list (option Position)) : result Image :=
  match images, pos with
  | [], _ => Ok atlas
  | img :: images', Some (x, y) :: pos' =>
      compose (paste atlas img x y) images' pos'
  | _ :: _, None :: _ => Raise TypeError
  | _ :: _, [] => Raise IndexError
  end.

Definition pack_images (images : list Image) (padding : Z)
    : result (Image * list (option Position)) :=
  match images with
  | [] => Ok (Image_new 1 1 transparent, [])
  | _ :: _ =>
      atlas_width ← estimate_width images padding;
      let st := shelf_pack images padding atlas_width in
      let size := final_size padding atlas_width st in
      atlas ← compose (Image_new size size transparent) images (positions st);
      Ok (atlas, positions st)
  end.

(** The rectangle of image [i], as [main] writes it to the metadata:
    [x, y = pos_map[i]] and [w, h = images[i].width, images[i].height]. *)
Definition Placement : Type := Z * Z * Z * Z.

Definition placement (images : list Image) (pos : list (option Position))
    (i : nat) : option Placement :=
  match images !! i, pos !! i with
  | Some img, Some (Some (x, y)) => Some (x, y, width img, height img)
  | _, _ => None
  end.

(** Images of one colour, for the examples. *)
Definition opaque_red : RGBA := (xff, x00, x00, xff).
Definition solid (w h : Z) : Image := Image_new w h opaque_red.

(** ** Notions of the specification *)

Definition is_pow2 (n : Z) : Prop := exists k, 0 <= k /\ n = 2 ^ k.

(** [r] is the smallest power of two that is not below [n]. *)
Definition smallest_pow2_ge (n r : Z) : Prop :=
  is_pow2 r /\ n <= r /\ forall r', is_pow2 r' -> n <= r' -> r <= r'.

(** Index [i] is packed before index [j]: its key is larger, or the keys are
    equal and [i] comes first. *)
Definition packed_before (key : nat -> Z) (i j : nat) : Prop :=
  key j < key i \/ (key j = key i /\ (i < j)%nat).

(** The sizes of the images in packing order. *)
Definition sizes_in_order (images : list Image) (order : list nat)
    : list (Z * Z) :=
  map (fun idx => (width (images !!! idx), height (images !!! idx))) order.

(** The order of the specification: the indices of the images, by height
    descending, ties by input position. *)
Definition height_desc_stable (images : list Image) (order : list nat) : Prop :=
  order ≡ₚ seq 0 (length images) /\
  forall a b i j, (a < b)%nat -> order !! a = Some i -> order !! b = Some j ->
    height (images !!! j) < height (images !!! i) \/
    (height (images !!! j) = height (images !!! i) /\ (i < j)%nat).

(** The cursor recurrence of the specification, on the sizes of the images
    in packing order: the offsets that it records ... *)
Fixpoint cursor_offsets (W padding cx cy rh : Z) (sizes : list (Z * Z))
    : list Position :=
  match sizes with
  | [] => []
  | (w, h) :: rest =>
      let '(cx, cy, rh) :=
        if cx + w + padding >? W then (padding, cy + (rh + padding), 0)
        else (cx, cy, rh) in
      (cx, cy) :: cursor_offsets W padding (cx + (w + padding)) cy (Z.max rh h) rest
  end.

(** ... and the cursor [(cx, cy, row_height)] that it ends with. *)
Fixpoint cursor_end (W padding cx cy rh : Z) (sizes : list (Z * Z))
    : Z * Z * Z :=
  match sizes with
  | [] => (cx, cy, rh)
  | (w, h) :: rest =>
      let '(cx, cy, rh) :=
        if cx + w + padding >? W then (padding, cy + (rh + padding), 0)
        else (cx, cy, rh) in
      cursor_end W padding (cx + (w + padding)) cy (Z.max rh h) rest
  end.

Definition cursor_of (st : shelf) : Z * Z * Z :=
  (current_x st, current_y st, row_height st).

Definition nonneg_size (s : Z * Z) : Prop := 0 <= s.1 /\ 0 <= s.2.

(** The padded bounding boxes of two placements do not intersect. *)
Definition padded_disjoint (padding : Z) (a b : Placement) : Prop :=
  let '(xa, ya, wa, ha) := a in
  let '(xb, yb, wb, hb) := b in
  xa + wa + padding <= xb \/ ya + ha + padding <= yb \/
  xb + wb + padding <= xa \/ yb + hb + padding <= ya.

(** A placement lies inside a sheet. *)
Definition inside (sheet : Image) (a : Placement) : Prop :=
  let '(x, y, w, h) := a in x + w <= width sheet /\ y + h <= height sheet.

Definition positive_size (img : Image) : Prop :=
  0 < width img /\ 0 < height img.

(** The mathematical estimate of the specification: ceiling of the square
    root of the padded area. *)
Definition ceil_sqrt_area (images : list Image) (padding : Z) : Z :=
  Z.sqrt_up (total_area images padding).

(** The mantissa that rounding to nearest gives to a square root with
    integer part [q] and remainder [r]. *)
Definition round_sqrt (q r : Z) : Z :=
  if r =? 0 then q else if r <=? q then q else q + 1.

(** The normalised mantissa and the exponent of the double that is equal to
    the integer [n]. *)
Definition mant53 (n : Z) : Z := n * 2 ^ (52 - Z.log2 n).
Definition expo53 (n : Z) : Z := Z.log2 n - 52.

(** The sheet that [pack_images] allocates. *)
Definition blank_sheet (images : list Image) (padding W : Z) : Image :=
  let size := final_size padding W (shelf_pack images padding W) in
  Image_new size size transparent.

(** What [pack_images] returns, without the texels: the size of the sheet
    and the offsets, or the exception. *)
Definition layout (r : result (Image * list (option Position)))
    : result (Z * Z * list (option Position)) :=
  match r with
  | Ok (atlas, pos) => Ok (width atlas, height atlas, pos)
  | Raise e => Raise e
  end.

(** Two lists of images agree pairwise in width and height. *)
Definition same_sizes (images images' : list Image) : Prop :=
  Forall2 (fun a b => width a = width b /\ height a = height b) images images'.

(** ** Inputs of the examples *)

(** The scenario of the specification, whatever the texels are. *)
Definition img2 (px : list RGBA) : Image := mkImage 20 50 px.
Definition img1 (px : list RGBA) : Image := mkImage 40 30 px.
Definition img3 (px : list RGBA) : Image := mkImage 10 10 px.
Definition scenario (px2 px1 px3 : list RGBA) : list Image :=
  [img2 px2; img1 px1; img3 px3].

(** A small input for the examples. *)
Definition small_input : list Image := [solid 2 3; solid 3 2; solid 1 3].

(** The same sizes with other texels. *)
Definition small_input_clear : list Image :=
  [Image_new 2 3 transparent; Image_new 3 2 transparent;
   Image_new 1 3 transparent].

(** One image that is wider than the estimated width. *)
Definition wide_input : list Image := [solid 16 2].

(** An image without texels, and a list that contains one. *)
Definition empty_image : Image := mkImage 0 0 [].

(** Four small images whose padded area, with a padding of [33554430], is
    [2 ^ 52 + 1]. *)
Definition tiny_images : list Image :=
  [solid 3 3; solid 2 2; solid 1 2; solid 1 2].
Definition huge_padding : Z := 33554430.

(** ** Further notions and inputs *)

Definition nonneg_image (img : Image) : Prop :=
  0 <= width img /\ 0 <= height img.

(** An image that is at least as tall as it is wide; the square icons that
    the rasterizer is asked for are of this kind. *)
Definition tall_image (img : Image) : Prop :=
  0 < width img <= height img.

(** Three square icons. *)
Definition square_icons : list Image := [solid 4 4; solid 4 4; solid 4 4].

(** An image whose padded area is negative for a padding of [-4]. *)
Definition thin_input : list Image := [solid 1 8].

(** ** The command line: [find_msdfgen] and [main] *)

(** The metadata: [json_data]. *)
Record json_data : Type := mkJson {
  json_atlas_width : Z;
  json_atlas_height : Z;
  json_icons : gmap string Placement
}.

(** What the script reads from its environment: the file system, the
    platform, the functions of [os.path], the outcome of every run of the
    rasterizer, and whether the calls that write succeed. *)
Inductive raster : Type :=
| Rendered (img : Image)   (* [subprocess.run] succeeded, the PNG was read *)
| CalledProcessError       (* the rasterizer exited with an error *)
| OtherError.              (* any other exception; [main] does not catch it *)

Record World : Type := mkWorld {
  path_exists : string -> bool;            (* [os.path.exists] *)
  os_is_nt : bool;                         (* [os.name == 'nt'] *)
  which : string -> option string;         (* [shutil.which] *)
  path_in_build : string;
    (* [os.path.join(os.path.dirname(__file__), "build", "msdfgen")] *)
  glob_svg : string -> list string;
    (* [glob.glob(os.path.join(input_dir, "*.svg"))] *)
  basename : string -> string;             (* [os.path.basename] *)
  splitext : string -> string * string;    (* [os.path.splitext] *)
  rasterize : string -> string -> Z -> raster;
    (* the body of [try] for an executable, an SVG file and a size *)
  makedirs : string -> bool;
    (* [os.makedirs(os.path.join(input_dir, "_temp_msdf"), exist_ok=True)]
       returns *)
  save_image : string -> Image -> bool;    (* [atlas_img.save(path)] returns *)
  write_json : string -> json_data -> bool;
    (* [open(path, "w")] and [json.dump(json_data, f, indent=4)] return *)
  cleanup : string -> bool
    (* the removal of the temporary files and of their directory returns *)
}.

(** The truth value of a string or [None]. *)
Definition truthy (s : option string) : bool :=
  match s with
  | Some s => negb (String.eqb s "")
  | None => false
  end.

Definition find_msdfgen (w : World) : option string :=
  if path_exists w (path_in_build w) then Some (path_in_build w)
  else if os_is_nt w && path_exists w (path_in_build w +:+ ".exe")
  then Some (path_in_build w +:+ ".exe")
  else if truthy (which w "msdfgen") then Some "msdfgen"
  else None.

(** The arguments of the command. *)
Record Args : Type := mkArgs {
  input_dir : string;
  output_atlas : string;
  output_json : string;
  icon_size : Z;
  padding_arg : Z;
  msdfgen_path : option string
}.

(** An entry of [icons_data]. *)
Record icon_meta : Type := mkMeta {
  meta_name : string;
  meta_file : string
}.

(** [for svg in svg_files: ...]: the images that were rendered and their
    names, in the order of the files; [None] for an exception that is not
    caught. *)
Fixpoint rasterize_all (w : World) (tool : string) (sz : Z)
    (svg_files : list string) (icons_data : list icon_meta)
    (images : list Image) : option (list icon_meta * list Image) :=
  match svg_files with
  | [] => Some (icons_data, images)
  | svg :: rest =>
      let file := basename w svg in
      let name := (splitext w file).1 in
      match rasterize w tool svg sz with
      | Rendered img =>
          rasterize_all w tool sz rest
            (icons_data ++ [mkMeta name file]) (images ++ [img])
      | CalledProcessError => rasterize_all w tool sz rest icons_data images
      | OtherError => None
      end
  end.

(** [for i, meta in enumerate(icons_data): ...] *)
Fixpoint fill_icons (pos_map : list (option Position)) (images : list Image)
    (icons_data : list icon_meta) (i : nat) (icons : gmap string Placement)
    : result (gmap string Placement) :=
  match icons_data with
  | [] => Ok icons
  | meta :: rest =>
      match pos_map !! i with
      | None => Raise IndexError
      | Some None => Raise TypeError
      | Some (Some (x, y)) =>
          match images !! i with
          | None => Raise IndexError
          | Some img =>
              fill_icons pos_map images rest (S i)
                (<[meta_name meta := (x, y, width img, height img)]> icons)
          end
      end
  end.

(** How [main] ends, and what it has written by then. *)
Inductive status : Type :=
| Returned (code : Z)
| Raised (e : exn)         (* an exception of [pack_images] or of the
                              metadata loop *)
| RasterizerRaised         (* an exception of the rasterizer step that is
                              not [CalledProcessError] *)
| OSRaised.                (* an exception of a call that writes: the
                              temporary directory, the atlas, the metadata,
                              the cleanup *)

Record Run : Type := mkRun {
  run_status : status;
  saved_atlas : option Image;      (* [atlas_img.save(args.output_atlas)] *)
  saved_json : option json_data    (* [json.dump(json_data, f, indent=4)] *)
}.

(** [main]; the messages that it prints are left out.  The atlas is saved
    before the metadata is built, and the metadata is written before the
    temporary files are removed. *)
Definition main (w : World) (args : Args) : Run :=
  if negb (path_exists w (input_dir args)) then mkRun (Returned 1) None None
  else
    let msdfgen :=
      if truthy (msdfgen_path args) then msdfgen_path args
      else find_msdfgen w in
    match msdfgen with
    | None => mkRun (Returned 1) None None
    | Some tool =>
        if negb (truthy msdfgen) then mkRun (Returned 1) None None
        else
          let svg_files := glob_svg w (input_dir args) in
          match svg_files with
          | [] => mkRun (Returned 0) None None
          | _ :: _ =>
              if negb (makedirs w (input_dir args))
              then mkRun OSRaised None None
              else
              match rasterize_all w tool (icon_size args) svg_files [] [] with
              | None => mkRun RasterizerRaised None None
              | Some (icons_data, images) =>
                  match images with
                  | [] => mkRun (Returned 1) None None
                  | _ :: _ =>
                      match pack_images images (padding_arg args) with
                      | Raise e => mkRun (Raised e) None None
                      | Ok (atlas_img, pos_map) =>
                          if negb (save_image w (output_atlas args) atlas_img)
                          then mkRun OSRaised None None
                          else
                          match fill_icons pos_map images icons_data 0 ∅ with
                          | Raise e => mkRun (Raised e) (Some atlas_img) None
                          | Ok icons =>
                              let json_data :=
                                mkJson (width atlas_img) (height atlas_img)
                                  icons in
                              if negb (write_json w (output_json args)
                                         json_data)
                              then mkRun OSRaised (Some atlas_img) None
                              else if negb (cleanup w (input_dir args))
                              then mkRun OSRaised (Some atlas_img)
                                     (Some json_data)
                              else mkRun (Returned 0) (Some atlas_img)
                                     (Some json_data)
                          end
                      end
                  end
              end
          end
    end.

(** The entry that the rasterization of one SVG file adds, if any. *)
Definition rendered_entry (w : World) (tool : string) (sz : Z) (svg : string)
    : option (icon_meta * Image) :=
  match rasterize w tool svg sz with
  | Rendered img =>
      Some (mkMeta (splitext w (basename w svg)).1 (basename w svg), img)
  | _ => None
  end.

(** A world for the examples: three SVG files, the second of which the
    rasterizer rejects; every write succeeds. *)
Definition demo_world : World :=
  mkWorld (fun _ => true) false (fun _ => None) "build/msdfgen"
    (fun _ => ["icons/a.svg"; "icons/b.svg"; "icons/c.svg"])
    (fun p => String.substring 6 (String.length p - 6) p)
    (fun f => (String.substring 0 (String.length f - 4) f, ".svg"))
    (fun _ svg sz =>
       if String.eqb svg "icons/b.svg" then CalledProcessError
       else Rendered (solid sz sz))
    (fun _ => true) (fun _ _ => true) (fun _ _ => true) (fun _ => true).

Definition demo_args : Args :=
  mkArgs "icons" "atlas.png" "atlas.json" 3 1 None.

(** * Proofs *)

(** ** The error monad *)

Lemma bind_Ok {A B} (a : A) (f : A -> result B) : Ok a ≫= f = f a.
Proof. reflexivity. Qed.

Lemma bind_Ok_inv {A B} (r : result A) (f : A -> result B) b :
  r ≫= f = Ok b -> exists a, r = Ok a /\ f a = Ok b.
Proof. destruct r as [a|e]; [by exists a | done]. Qed.

(** ** Powers of two *)

Lemma bit_length_nonneg x : 0 <= bit_length x.
Proof.
  destruct x as [|p|p]; unfold bit_length; try lia;
    pose proof (Z.log2_nonneg (Zpos p)); lia.
Qed.

Lemma bit_length_pos_spec x :
  0 < x -> 2 ^ (bit_length x - 1) <= x < 2 ^ bit_length x.
Proof.
  intros Hx. destruct x as [|p|p]; try lia.
  unfold bit_length. replace (Z.log2 (Z.pos p) + 1 - 1) with (Z.log2 (Z.pos p)) by lia.
  replace (Z.log2 (Z.pos p) + 1) with (Z.succ (Z.log2 (Z.pos p))) by lia.
  apply Z.log2_spec. lia.
Qed.

Lemma round_pow2_eq n : round_pow2 n = 2 ^ bit_length (n - 1).
Proof.
  unfold round_pow2. rewrite Z.shiftl_1_l. reflexivity.
Qed.

Lemma round_pow2_is_pow2 n : is_pow2 (round_pow2 n).
Proof.
  exists (bit_length (n - 1)). split; [apply bit_length_nonneg | apply round_pow2_eq].
Qed.

Lemma round_pow2_pos n : 1 <= round_pow2 n.
Proof.
  rewrite round_pow2_eq.
  pose proof (bit_length_nonneg (n - 1)) as Hb.
  pose proof (Z.pow_pos_nonneg 2 (bit_length (n - 1)) ltac:(lia) Hb). lia.
Qed.

Lemma round_pow2_smallest n : 1 <= n -> smallest_pow2_ge n (round_pow2 n).
Proof.
  intros Hn. split; [apply round_pow2_is_pow2 |].
  rewrite round_pow2_eq.
  destruct (Z.eq_dec n 1) as [-> | Hne].
  - simpl. split; [lia |]. intros r' (k & Hk & ->).
    pose proof (Z.pow_pos_nonneg 2 k ltac:(lia) Hk). lia.
  - pose proof (bit_length_pos_spec (n - 1) ltac:(lia)) as [Hlo Hhi].
    split; [lia |]. intros r' (k & Hk & ->) Hle.
    apply Z.pow_le_mono_r; [lia |].
    destruct (Z.lt_ge_cases k (bit_length (n - 1))) as [Hlt | Hge]; [| lia].
    exfalso.
    assert (2 ^ k <= 2 ^ (bit_length (n - 1) - 1))
      by (apply Z.pow_le_mono_r; lia).
    lia.
Qed.

(** ** Rounding of the square root on doubles *)

Lemma sqrt_up_bounds n : 1 <= n ->
  1 <= Z.sqrt_up n /\ (Z.sqrt_up n - 1) * (Z.sqrt_up n - 1) < n <= Z.sqrt_up n * Z.sqrt_up n.
Proof.
  intros Hn. pose proof (Z.sqrt_up_spec n ltac:(lia)) as Hs.
  pose proof (Z.sqrt_up_nonneg n) as H0.
  unfold Z.pred in Hs.
  replace (Z.sqrt_up n + -1) with (Z.sqrt_up n - 1) in Hs by lia.
  split; [nia | exact Hs].
Qed.

(** Scaling [n] by [4 ^ t], taking the integer square root and rounding to
    nearest loses nothing of the ceiling, as long as [2 ^ t] is not below
    the root. *)
Lemma round_sqrt_ceil n T q r :
  1 <= n -> Z.sqrt_up n <= T ->
  n * (T * T) = q * q + r -> 0 <= r <= 2 * q -> 0 <= q ->
  (Z.sqrt_up n - 1) * T < round_sqrt q r <= Z.sqrt_up n * T.
Proof.
  intros Hn HT Heq Hr Hq.
  destruct (sqrt_up_bounds n Hn) as (Hk & Hlo & Hhi).
  set (k := Z.sqrt_up n) in *.
  assert (HT0 : 1 <= T) by lia.
  assert (HTT : 1 <= T * T) by nia.
  assert (Hn_hi : n * (T * T) <= (k * T) * (k * T)) by nia.
  assert (Hn_lo : ((k - 1) * T) * ((k - 1) * T) + T * T <= n * (T * T)) by nia.
  assert (Hq_hi : q <= k * T)
    by (apply Z.square_le_simpl_nonneg; nia).
  assert (Hq_lo : (k - 1) * T <= q).
  { apply Z.lt_succ_r. apply Z.square_lt_simpl_nonneg; nia. }
  assert (Hmid : q = (k - 1) * T -> q < r) by nia.
  assert (Htop : q = k * T -> r = 0) by nia.
  unfold round_sqrt.
  destruct (Z.eqb_spec r 0) as [Hr0 | Hr0].
  - lia.
  - destruct (Z.leb_spec r q) as [Hle | Hgt]; lia.
Qed.

Lemma ceil_div_unique a T k : 0 < T -> (k - 1) * T < a <= k * T ->
  - ((- a) / T) = k.
Proof.
  intros HT Ha.
  assert ((- a) / T = - k); [| lia].
  symmetry. apply Z.div_unique with (r := k * T - a); lia.
Qed.

(** *** Mantissas of 53 bits are not shifted by the rounding *)

Lemma digits2_pos_size p : digits2_pos p = Pos.size p.
Proof. induction p; simpl; congruence. Qed.

Lemma Zdigits2_log2 m : 0 < m -> Zdigits2 m = Z.log2 m + 1.
Proof.
  destruct m as [|p|p]; try lia. intros _. simpl Zdigits2.
  rewrite digits2_pos_size. destruct p; simpl; lia.
Qed.

Lemma Zdigits2_53 m : 2 ^ 52 <= m < 2 ^ 53 -> Zdigits2 m = 53.
Proof.
  intros Hm. rewrite Zdigits2_log2 by lia.
  rewrite (Z.log2_unique m 52); lia.
Qed.

Lemma shr_fexp_53 m e l :
  Zdigits2 m = 53 -> -1074 <= e ->
  shr_fexp dbl_prec dbl_emax m e l = (shr_record_of_loc m l, e).
Proof.
  intros Hd He. unfold shr_fexp. rewrite Hd.
  replace (fexp dbl_prec dbl_emax (53 + e) - e) with 0; [reflexivity |].
  unfold fexp, emin, dbl_prec, dbl_emax. lia.
Qed.

Lemma loc_of_shr_record_of_loc m l :
  loc_of_shr_record (shr_record_of_loc m l) = l.
Proof. destruct l as [|[]]; reflexivity. Qed.

Lemma binary_round_aux_53 m e l :
  2 ^ 52 <= m -> round_nearest_even m l < 2 ^ 53 -> -1074 <= e <= 971 ->
  binary_round_aux dbl_prec dbl_emax false m e l =
  S754_finite false (Z.to_pos (round_nearest_even m l)) e.
Proof.
  intros Hlo Hhi He.
  assert (Hm : m <= round_nearest_even m l).
  { destruct l as [|[]]; simpl; try lia. destruct (Z.even m); lia. }
  assert (m < 2 ^ 53) by lia.
  unfold binary_round_aux.
  rewrite shr_fexp_53 by (try apply Zdigits2_53; lia).
  replace (shr_m (shr_record_of_loc m l)) with m by (destruct l as [|[]]; reflexivity).
  rewrite loc_of_shr_record_of_loc.
  rewrite shr_fexp_53 by (try apply Zdigits2_53; lia).
  simpl shr_m.
  destruct (round_nearest_even m l) as [|p|p] eqn:Hr; try lia.
  replace (e <=? dbl_emax - dbl_prec) with true; [reflexivity |].
  symmetry. apply Z.leb_le. unfold dbl_emax, dbl_prec. lia.
Qed.

(** *** Conversion of an integer below [2 ^ 53] is exact *)

Lemma Pos_iter_xO p s : Zpos (Pos.iter xO p s) = Zpos p * 2 ^ Zpos s.
Proof.
  induction s as [|s IH] using Pos.peano_ind.
  - simpl. lia.
  - rewrite Pos.iter_succ, Pos2Z.inj_succ, Z.pow_succ_r by lia.
    rewrite Pos2Z.inj_xO, IH. lia.
Qed.

Lemma mant53_bounds n : 1 <= n < 2 ^ 53 -> 2 ^ 52 <= mant53 n < 2 ^ 53.
Proof.
  intros Hn. unfold mant53.
  pose proof (Z.log2_spec n ltac:(lia)) as [Hlo Hhi].
  pose proof (Z.log2_nonneg n) as H0.
  assert (Hd : Z.log2 n < 53) by (apply Z.log2_lt_pow2; lia).
  replace (2 ^ 52) with (2 ^ Z.log2 n * 2 ^ (52 - Z.log2 n))
    by (rewrite <- Z.pow_add_r by lia; f_equal; lia).
  replace (2 ^ 53) with (2 ^ Z.succ (Z.log2 n) * 2 ^ (52 - Z.log2 n))
    by (rewrite <- Z.pow_add_r by lia; f_equal; lia).
  pose proof (Z.pow_pos_nonneg 2 (52 - Z.log2 n) ltac:(lia) ltac:(lia)).
  split; [apply Z.mul_le_mono_nonneg_r | apply Z.mul_lt_mono_pos_r]; lia.
Qed.

Lemma float_of_int_exact n : 1 <= n < 2 ^ 53 ->
  float_of_int n = Ok (S754_finite false (Z.to_pos (mant53 n)) (expo53 n)).
Proof.
  intros Hn.
  pose proof (mant53_bounds n Hn) as Hm.
  pose proof (Z.log2_nonneg n) as H0.
  assert (Hd : Z.log2 n < 53) by (apply Z.log2_lt_pow2; lia).
  assert (HM : mant53 n = n * 2 ^ (52 - Z.log2 n)) by reflexivity.
  assert (HE : expo53 n = Z.log2 n - 52) by reflexivity.
  destruct n as [|p|p]; try lia.
  set (M := mant53 (Zpos p)) in *. set (E := expo53 (Zpos p)) in *.
  unfold float_of_int, binary_normalize, binary_round.
  change (Z.pos (digits2_pos p)) with (Zdigits2 (Zpos p)).
  rewrite Zdigits2_log2 by lia.
  replace (fexp dbl_prec dbl_emax (Z.log2 (Z.pos p) + 1 + 0)) with E
    by (unfold fexp, emin, dbl_prec, dbl_emax; lia).
  assert (Hal : shl_align p 0 E = (Z.to_pos M, E)).
  { unfold shl_align. destruct (E - 0) as [|s|s] eqn:Hs; try lia.
    - f_equal; [| lia]. apply Pos2Z.inj. rewrite Z2Pos.id, HM by lia.
      replace (52 - Z.log2 (Z.pos p)) with 0 by lia. lia.
    - f_equal. apply Pos2Z.inj. rewrite Pos_iter_xO, Z2Pos.id, HM by lia.
      f_equal. f_equal. lia. }
  rewrite Hal, Z2Pos.id by lia.
  rewrite binary_round_aux_53; unfold round_nearest_even; try lia.
  reflexivity.
Qed.

(** *** The square root of a double that holds an integer below [2 ^ 52] *)

Lemma SFsqrt_core_53 M E :
  Zdigits2 M = 53 -> -52 <= E <= 971 ->
  SFsqrt_core_binary dbl_prec dbl_emax M E =
  (let (q, r) := Z.sqrtrem (M * 2 ^ (E mod 2 + 52)) in
   (q, E / 2 - 26,
    if r =? 0 then loc_Exact
    else loc_Inexact (if r <=? q then Lt else Gt))).
Proof.
  intros Hd HE. unfold SFsqrt_core_binary. rewrite Hd.
  rewrite !Z.div2_div.
  pose proof (Z.div_mod E 2 ltac:(lia)) as Hdm.
  pose proof (Z.mod_pos_bound E 2 ltac:(lia)) as Hmod.
  replace (53 + E + 1) with (E + 27 * 2) by lia.
  rewrite Z.div_add by lia.
  replace (Z.min (fexp dbl_prec dbl_emax (E / 2 + 27)) (E / 2))
    with (E / 2 - 26)
    by (unfold fexp, emin, dbl_prec, dbl_emax; lia).
  replace (E - 2 * (E / 2 - 26)) with (E mod 2 + 52) by lia.
  destruct (E mod 2 + 52) as [|s|s] eqn:Hs; try lia.
  rewrite Z.shiftl_mul_pow2 by lia. reflexivity.
Qed.

Lemma sqrt_mantissa_bounds n A T q r :
  1 <= n -> A * T = 2 ^ 53 -> 1 <= A <= T -> 2 ^ 27 <= T ->
  n < A * A -> A * A <= 4 * n ->
  n * (T * T) = q * q + r -> 0 <= r <= 2 * q -> 0 <= q ->
  2 ^ 52 <= q /\ round_sqrt q r < 2 ^ 53 /\ Z.sqrt_up n <= T.
Proof.
  intros Hn HAT HA HT Hhi Hlo Heq Hr Hq.
  assert (HAATT : (A * A) * (T * T) = 2 ^ 53 * 2 ^ 53) by (rewrite <- HAT; ring).
  assert (HTT : 2 ^ 27 * 2 ^ 27 <= T * T) by nia.
  assert (Hm_lo : 2 ^ 52 * 2 ^ 52 <= n * (T * T)) by nia.
  assert (Hm_hi : n * (T * T) <= 2 ^ 53 * 2 ^ 53 - T * T) by nia.
  assert (Hq52 : 2 ^ 52 <= q).
  { apply Z.lt_succ_r. apply Z.square_lt_simpl_nonneg; [lia |].
    change (2 ^ 52 * 2 ^ 52) with 20282409603651670423947251286016 in *.
    nia. }
  assert (Hq53 : q < 2 ^ 53).
  { apply Z.square_lt_simpl_nonneg; [lia |].
    change (2 ^ 53 * 2 ^ 53) with 81129638414606681695789005144064 in *.
    change (2 ^ 27 * 2 ^ 27) with 18014398509481984 in *.
    nia. }
  split; [exact Hq52 |]. split.
  - unfold round_sqrt.
    destruct (Z.eqb_spec r 0); [lia |].
    destruct (Z.leb_spec r q); [lia |].
    destruct (Z.eq_dec q (2 ^ 53 - 1)) as [-> | Hne]; [| lia].
    exfalso.
    change (2 ^ 53 * 2 ^ 53) with 81129638414606681695789005144064 in *.
    change (2 ^ 27 * 2 ^ 27) with 18014398509481984 in *.
    change (2 ^ 53 - 1) with 9007199254740991 in *.
    lia.
  - destruct (sqrt_up_bounds n Hn) as (Hk & Hklo & Hkhi).
    assert (Z.sqrt_up n - 1 < A); [| lia].
    apply Z.square_lt_simpl_nonneg; lia.
Qed.

Lemma round_nearest_even_sqrt q r :
  round_nearest_even q
    (if r =? 0 then loc_Exact else loc_Inexact (if r <=? q then Lt else Gt)) =
  round_sqrt q r.
Proof.
  unfold round_sqrt. destruct (r =? 0); [reflexivity |].
  destruct (r <=? q); reflexivity.
Qed.

(** On integers up to [2 ^ 52], [int(math.ceil(math.sqrt(n)))] is the exact
    ceiling of the square root. *)
Lemma ceil_sqrt_small n : 1 <= n < 2 ^ 52 ->
  (r ← math_sqrt n; math_ceil r) = Ok (Z.sqrt_up n).
Proof.
  intros Hn.
  pose proof (mant53_bounds n ltac:(lia)) as HM.
  pose proof (Z.log2_nonneg n) as HL0.
  assert (HL : Z.log2 n < 52) by (apply Z.log2_lt_pow2; lia).
  pose proof (Z.log2_spec n ltac:(lia)) as [Hnlo Hnhi].
  set (L := Z.log2 n) in *.
  pose proof (Z.div_mod L 2 ltac:(lia)) as Hdm.
  pose proof (Z.mod_pos_bound L 2 ltac:(lia)) as Hmod.
  set (t := 52 - L / 2).
  set (T := 2 ^ t). set (A := 2 ^ (L / 2 + 1)).
  assert (HAT : A * T = 2 ^ 53).
  { unfold A, T, t. rewrite <- Z.pow_add_r by lia. f_equal. lia. }
  assert (HA1 : 1 <= A)
    by (pose proof (Z.pow_pos_nonneg 2 (L / 2 + 1) ltac:(lia) ltac:(lia)); lia).
  assert (HAle : A <= T) by (apply Z.pow_le_mono_r; lia).
  assert (HT27 : 2 ^ 27 <= T) by (apply Z.pow_le_mono_r; lia).
  assert (HAA : A * A = 2 ^ (2 * (L / 2) + 2)).
  { unfold A. rewrite <- Z.pow_add_r by lia. f_equal. lia. }
  assert (HnA : n < A * A).
  { rewrite HAA. eapply Z.lt_le_trans; [exact Hnhi |].
    apply Z.pow_le_mono_r; lia. }
  assert (HAn : A * A <= 4 * n).
  { rewrite HAA. replace (2 * (L / 2) + 2) with (2 + 2 * (L / 2)) by lia.
    rewrite Z.pow_add_r by lia. change (2 ^ 2) with 4.
    assert (2 ^ (2 * (L / 2)) <= 2 ^ L) by (apply Z.pow_le_mono_r; lia).
    lia. }
  assert (HE : expo53 n = L - 52) by reflexivity.
  assert (Hscale : mant53 n * 2 ^ (expo53 n mod 2 + 52) = n * (T * T)).
  { unfold mant53, T, t. fold L. rewrite HE.
    replace ((L - 52) mod 2) with (L mod 2)
      by (replace (L - 52) with (L + (-26) * 2) by lia;
          rewrite Z.mod_add by lia; reflexivity).
    rewrite <- Z.mul_assoc, <- !Z.pow_add_r by lia. f_equal. f_equal. lia. }
  assert (Hexp : expo53 n / 2 - 26 = - t).
  { rewrite HE. unfold t. replace (L - 52) with (L + (-26) * 2) by lia.
    rewrite Z.div_add by lia. lia. }
  unfold math_sqrt. rewrite float_of_int_exact by lia.
  change (Ok ?x ≫= ?f) with (f x). cbv beta.
  unfold SFsqrt. rewrite Z2Pos.id by lia.
  rewrite SFsqrt_core_53 by (try apply Zdigits2_53; lia).
  rewrite Hscale, Hexp.
  pose proof (Z.sqrtrem_spec (n * (T * T)) ltac:(nia)) as Hspec.
  destruct (Z.sqrtrem (n * (T * T))) as [q r].
  destruct Hspec as (Heq & Hr).
  assert (Hq : 0 <= q) by lia.
  destruct (sqrt_mantissa_bounds n A T q r) as (Hq52 & Hq53 & HkT); try lia.
  pose proof (round_sqrt_ceil n T q r ltac:(lia) HkT Heq Hr Hq) as Hceil.
  assert (Hrq : q <= round_sqrt q r)
    by (unfold round_sqrt; destruct (r =? 0), (r <=? q); lia).
  rewrite binary_round_aux_53;
    rewrite ?round_nearest_even_sqrt; try lia.
  change (Ok ?x ≫= ?f) with (f x). cbv beta.
  unfold math_ceil.
  replace (0 <=? - t) with false by (symmetry; apply Z.leb_gt; unfold t; lia).
  f_equal. rewrite Z2Pos.id by lia. rewrite Z.opp_involutive.
  fold T. apply ceil_div_unique; lia.
Qed.

Lemma ceil_sqrt_exact n : 0 <= n <= 2 ^ 52 ->
  (r ← math_sqrt n; math_ceil r) = Ok (Z.sqrt_up n).
Proof.
  intros Hn.
  destruct (Z.eq_dec n 0) as [-> | Hn0]; [reflexivity |].
  destruct (Z.eq_dec n (2 ^ 52)) as [-> | Hn52]; [vm_compute; reflexivity |].
  apply ceil_sqrt_small. lia.
Qed.

(** *** Larger integers: the conversion rounds, and nothing raises *)

Lemma shr_1_m mrs : 0 <= shr_m mrs -> shr_m (shr_1 mrs) = shr_m mrs / 2.
Proof.
  destruct mrs as [m r s]. simpl. intros Hm.
  rewrite <- Z.div2_div. destruct m as [|[p|p|]|p]; try done; lia.
Qed.

Lemma iter_pos_shr_1_m k : forall mrs, 0 <= shr_m mrs ->
  shr_m (SpecFloat.iter_pos shr_1 k mrs) = shr_m mrs / 2 ^ Zpos k.
Proof.
  induction k as [k IH|k IH|]; intros mrs Hm; cbn [SpecFloat.iter_pos];
    try pose proof (Z.pow_pos_nonneg 2 (Zpos k) ltac:(lia) ltac:(lia)) as Hk.
  - assert (H1 : 0 <= shr_m (shr_1 mrs))
      by (rewrite shr_1_m by done; apply Z.div_pos; lia).
    assert (H2 : 0 <= shr_m (SpecFloat.iter_pos shr_1 k (shr_1 mrs)))
      by (rewrite IH by done; apply Z.div_pos; lia).
    rewrite IH, IH, shr_1_m by done.
    replace (2 ^ Z.pos k~1) with (2 * 2 ^ Z.pos k * 2 ^ Z.pos k).
    + rewrite !Z.div_div by nia. f_equal. lia.
    + rewrite <- (Z.pow_1_r 2) at 1. rewrite <- !Z.pow_add_r by lia.
      f_equal. lia.
  - assert (H2 : 0 <= shr_m (SpecFloat.iter_pos shr_1 k mrs))
      by (rewrite IH by done; apply Z.div_pos; lia).
    rewrite IH, IH by done.
    replace (2 ^ Z.pos k~0) with (2 ^ Z.pos k * 2 ^ Z.pos k).
    + by rewrite Z.div_div by nia.
    + rewrite <- Z.pow_add_r by lia. f_equal. lia.
  - rewrite shr_1_m by done. reflexivity.
Qed.

Lemma round_nearest_even_range m l :
  m <= round_nearest_even m l <= m + 1.
Proof. destruct l as [|[]]; simpl; try lia. destruct (Z.even m); lia. Qed.

(** A mantissa of 53 bits and a carry of the rounding: the second shift of
    [binary_round_aux] renormalises it. *)
Lemma binary_round_aux_carry m e :
  2 ^ 52 <= m <= 2 ^ 53 -> -1074 <= e <= 970 ->
  exists m' e',
    (let '(mrs, e'') := shr_fexp dbl_prec dbl_emax m e loc_Exact in
     match shr_m mrs with
     | Z0 => S754_zero false
     | Zpos p => if e'' <=? dbl_emax - dbl_prec
                 then S754_finite false p e'' else S754_infinity false
     | Zneg _ => S754_nan
     end) = S754_finite false m' e' /\
    2 ^ 52 <= Zpos m' < 2 ^ 53 /\ e <= e' <= e + 1.
Proof.
  intros Hm He.
  destruct (Z.eq_dec m (2 ^ 53)) as [-> | Hne].
  - exists (Z.to_pos (2 ^ 52)), (e + 1).
    unfold shr_fexp.
    replace (fexp dbl_prec dbl_emax (Zdigits2 (2 ^ 53) + e) - e) with 1
      by (change (Zdigits2 (2 ^ 53)) with 54;
          unfold fexp, emin, dbl_prec, dbl_emax; lia).
    cbn [shr shr_record_of_loc SpecFloat.iter_pos]. simpl shr_m.
    replace (e + 1 <=? dbl_emax - dbl_prec) with true
      by (symmetry; apply Z.leb_le; unfold dbl_emax, dbl_prec; lia).
    split; [reflexivity |]. split; [simpl; lia | lia].
  - exists (Z.to_pos m), e.
    rewrite shr_fexp_53 by (try apply Zdigits2_53; lia).
    simpl shr_m. destruct m as [|p|p]; try lia.
    replace (e <=? dbl_emax - dbl_prec) with true
      by (symmetry; apply Z.leb_le; unfold dbl_emax, dbl_prec; lia).
    split; [reflexivity |]. simpl Z.to_pos. lia.
Qed.

(** Every positive integer below [2 ^ 1023] converts to a normal double. *)
Lemma float_of_int_finite n : 1 <= n < 2 ^ 1023 ->
  exists m e, float_of_int n = Ok (S754_finite false m e) /\
    2 ^ 52 <= Zpos m < 2 ^ 53 /\ -52 <= e <= 971.
Proof.
  intros Hn.
  destruct (Z.lt_ge_cases n (2 ^ 53)) as [Hsmall | Hbig].
  - exists (Z.to_pos (mant53 n)), (expo53 n).
    pose proof (mant53_bounds n ltac:(lia)) as HM.
    split; [apply float_of_int_exact; lia |].
    rewrite Z2Pos.id by lia. split; [done |]. unfold expo53.
    pose proof (Z.log2_nonneg n).
    assert (Z.log2 n < 53) by (apply Z.log2_lt_pow2; lia). lia.
  - pose proof (Z.log2_spec n ltac:(lia)) as [Hlo Hhi].
    assert (HL53 : 53 <= Z.log2 n) by (apply Z.log2_le_pow2; lia).
    assert (HL : Z.log2 n < 1023) by (apply Z.log2_lt_pow2; lia).
    set (L := Z.log2 n) in *.
    destruct n as [|p|p]; try lia.
    unfold float_of_int, binary_normalize, binary_round.
    change (Z.pos (digits2_pos p)) with (Zdigits2 (Zpos p)).
    rewrite Zdigits2_log2 by lia. fold L.
    replace (fexp dbl_prec dbl_emax (L + 1 + 0)) with (L - 52)
      by (unfold fexp, emin, dbl_prec, dbl_emax; lia).
    assert (Hal : shl_align p 0 (L - 52) = (p, 0)).
    { unfold shl_align. destruct (L - 52 - 0) as [|s|s] eqn:Hs; try lia; done. }
    rewrite Hal. unfold binary_round_aux.
    unfold shr_fexp at 1. rewrite Zdigits2_log2 by lia. fold L.
    replace (fexp dbl_prec dbl_emax (L + 1 + 0) - 0) with (L - 52)
      by (unfold fexp, emin, dbl_prec, dbl_emax; lia).
    destruct (L - 52) as [|s|s] eqn:Hs; try lia.
    cbn [shr shr_record_of_loc].
    set (mrs := SpecFloat.iter_pos shr_1 s _).
    assert (Hm1 : shr_m mrs = Zpos p / 2 ^ Zpos s)
      by (unfold mrs; rewrite iter_pos_shr_1_m; simpl; [done | lia]).
    assert (Hm1b : 2 ^ 52 <= shr_m mrs < 2 ^ 53).
    { rewrite Hm1.
      assert (Hps : 0 < 2 ^ Zpos s) by (apply Z.pow_pos_nonneg; lia).
      split.
      - apply Z.div_le_lower_bound; [lia |].
        rewrite Z.mul_comm, <- Z.pow_add_r by lia.
        replace (52 + Zpos s) with L by lia. done.
      - apply Z.div_lt_upper_bound; [lia |].
        rewrite <- Z.pow_add_r by lia.
        replace (Zpos s + 53) with (Z.succ L) by lia. done. }
    pose proof (round_nearest_even_range (shr_m mrs) (loc_of_shr_record mrs)) as Hr.
    destruct (binary_round_aux_carry
                (round_nearest_even (shr_m mrs) (loc_of_shr_record mrs))
                (0 + Zpos s)) as (m' & e' & Heq & Hm' & He'); [lia | lia |].
    exists m', e'.
    destruct (shr_fexp _ _ _ _ _) as [mrs'' e''].
    rewrite Heq. split; [done |]. split; [done | lia].
Qed.

(** The square root of a normal double is a normal double. *)
Lemma SFsqrt_finite m e :
  2 ^ 52 <= Zpos m < 2 ^ 53 -> -52 <= e <= 971 ->
  exists m' e', SFsqrt dbl_prec dbl_emax (S754_finite false m e) =
                S754_finite false m' e'.
Proof.
  intros Hm He. unfold SFsqrt.
  rewrite SFsqrt_core_53 by (try apply Zdigits2_53; lia).
  pose proof (Z.mod_pos_bound e 2 ltac:(lia)) as Hmod.
  pose proof (Z.div_mod e 2 ltac:(lia)) as Hdm.
  set (M := Zpos m * 2 ^ (e mod 2 + 52)).
  assert (HM : 2 ^ 104 <= M <= 2 ^ 106 - 2 ^ 53).
  { unfold M. destruct (Z.eq_dec (e mod 2) 0) as [-> | Hodd].
    - change (2 ^ (0 + 52)) with (2 ^ 52). lia.
    - replace (e mod 2) with 1 by lia. change (2 ^ (1 + 52)) with (2 ^ 53). lia. }
  pose proof (Z.sqrtrem_spec M ltac:(lia)) as Hspec.
  destruct (Z.sqrtrem M) as [q r]. destruct Hspec as (Heq & Hr).
  assert (Hq52 : 2 ^ 52 <= q).
  { apply Z.lt_succ_r. apply Z.square_lt_simpl_nonneg; [lia |].
    change (2 ^ 104) with (2 ^ 52 * 2 ^ 52) in HM. nia. }
  assert (Hq53 : q < 2 ^ 53).
  { apply Z.square_lt_simpl_nonneg; [lia |].
    change (2 ^ 106) with (2 ^ 53 * 2 ^ 53) in HM. nia. }
  assert (Hrs : round_sqrt q r < 2 ^ 53).
  { unfold round_sqrt. destruct (Z.eqb_spec r 0); [lia |].
    destruct (Z.leb_spec r q); [lia |].
    destruct (Z.eq_dec q (2 ^ 53 - 1)) as [-> | Hne]; [| lia].
    exfalso. revert HM Heq Hr H. clear. intros. lia. }
  rewrite binary_round_aux_53; rewrite ?round_nearest_even_sqrt; try lia.
  by do 2 eexists.
Qed.

(** [int(math.ceil(math.sqrt(n)))] raises neither [ValueError] nor
    [OverflowError] for [0 <= n < 2 ^ 1023]. *)
Lemma ceil_sqrt_returns n : 0 <= n < 2 ^ 1023 ->
  exists c, (r ← math_sqrt n; math_ceil r) = Ok c.
Proof.
  intros Hn. destruct (Z.eq_dec n 0) as [-> | Hn0]; [by exists 0 |].
  destruct (float_of_int_finite n ltac:(lia)) as (m & e & Hf & Hm & He).
  destruct (SFsqrt_finite m e Hm He) as (m' & e' & Hs).
  unfold math_sqrt. rewrite Hf, bind_Ok, Hs, bind_Ok. simpl. by eexists.
Qed.

(** ** The packing order *)

Section Sorting.

Variable key : nat -> Z.

Local Abbreviation before := (packed_before key).

Lemma insert_desc_perm i l : insert_desc key i l ≡ₚ i :: l.
Proof.
  induction l as [|j l IH]; simpl; [reflexivity |].
  destruct (key i <? key j); [| reflexivity].
  rewrite IH. apply Permutation_swap.
Qed.

Lemma sorted_desc_perm l : sorted_desc key l ≡ₚ l.
Proof.
  induction l as [|i l IH]; simpl; [reflexivity |].
  rewrite insert_desc_perm. by f_equiv.
Qed.

Lemma insert_desc_sorted i l :
  StronglySorted before l -> Forall (fun j => (i < j)%nat) l ->
  StronglySorted before (insert_desc key i l).
Proof.
  induction 1 as [|j l Hs IH Hj]; intros Hi; simpl.
  - repeat constructor.
  - apply Forall_cons in Hi as [Hij Hi].
    destruct (Z.ltb_spec (key i) (key j)) as [Hlt | Hge].
    + constructor; [by apply IH |].
      rewrite insert_desc_perm. constructor; [by left | done].
    + constructor; [by constructor |].
      constructor; [unfold packed_before; lia |].
      rewrite Forall_forall in Hj, Hi |- *. intros y Hy.
      specialize (Hj y Hy). specialize (Hi y Hy). unfold packed_before in *. lia.
Qed.

Lemma sorted_desc_sorted l :
  StronglySorted lt l -> StronglySorted before (sorted_desc key l).
Proof.
  induction 1 as [|i l Hs IH Hi]; simpl; [constructor |].
  apply insert_desc_sorted; [done |]. by rewrite sorted_desc_perm.
Qed.

Lemma StronglySorted_lookup_lt {A} (R : A -> A -> Prop) (l : list A) a b x y :
  StronglySorted R l -> (a < b)%nat -> l !! a = Some x -> l !! b = Some y ->
  R x y.
Proof.
  intros Hs. revert a b. induction Hs as [|z l Hs IH Hz]; intros a b Hab Ha Hb.
  - done.
  - destruct b as [|b]; [lia |]. destruct a as [|a]; simpl in *.
    + injection Ha as ->. rewrite Forall_forall in Hz. apply Hz.
      by eapply list_elem_of_lookup_2.
    + apply (IH a b); [lia | done | done].
Qed.

Lemma sorted_desc_stable l a b i j :
  StronglySorted lt l -> (a < b)%nat ->
  sorted_desc key l !! a = Some i -> sorted_desc key l !! b = Some j ->
  key j < key i \/ (key j = key i /\ (i < j)%nat).
Proof.
  intros Hl Hab Ha Hb.
  exact (StronglySorted_lookup_lt before _ a b i j (sorted_desc_sorted l Hl) Hab Ha Hb).
Qed.

End Sorting.

Lemma seq_StronglySorted s n : StronglySorted lt (seq s n).
Proof.
  revert s. induction n as [|n IH]; intros s; simpl; constructor; [apply IH |].
  apply Forall_forall. intros x Hx. apply elem_of_seq in Hx. lia.
Qed.

Lemma sorted_indices_perm images :
  sorted_indices images ≡ₚ seq 0 (length images).
Proof. apply sorted_desc_perm. Qed.

Lemma sorted_indices_NoDup images : NoDup (sorted_indices images).
Proof. rewrite sorted_indices_perm. apply NoDup_seq. Qed.

Lemma sorted_indices_lt images idx :
  idx ∈ sorted_indices images -> (idx < length images)%nat.
Proof. rewrite sorted_indices_perm, elem_of_seq. lia. Qed.

Lemma sorted_indices_spec images :
  height_desc_stable images (sorted_indices images).
Proof.
  split; [apply sorted_indices_perm |].
  intros a b i j Hab Ha Hb.
  exact (sorted_desc_stable _ _ a b i j (seq_StronglySorted 0 _) Hab Ha Hb).
Qed.

(** ** The packing loop against the cursor recurrence *)

Section Loop.

Variable images : list Image.
Variable padding W : Z.

Local Abbreviation sizes := (sizes_in_order images).

(** The loop leaves the cursor of the recurrence. *)
Lemma fold_place_cursor order st :
  cursor_of (fold_left (place images padding W) order st) =
  cursor_end W padding (current_x st) (current_y st) (row_height st)
    (sizes order).
Proof.
  revert st. induction order as [|idx order IH]; intros st; [done |].
  cbn [fold_left sizes_in_order map cursor_end]. rewrite IH.
  unfold place.
  by destruct (current_x st + width (images !!! idx) + padding >? W).
Qed.

Lemma fold_place_length order st :
  length (positions (fold_left (place images padding W) order st)) =
  length (positions st).
Proof.
  revert st. induction order as [|idx order IH]; intros st; [done |].
  cbn [fold_left]. rewrite IH. unfold place.
  destruct (_ >? W); cbn [positions]; apply length_insert.
Qed.

(** Indices that are not visited keep their entry. *)
Lemma fold_place_other order st i :
  i ∉ order ->
  positions (fold_left (place images padding W) order st) !! i =
  positions st !! i.
Proof.
  revert st. induction order as [|idx order IH]; intros st Hi; [done |].
  apply not_elem_of_cons in Hi as [Hne Hi].
  cbn [fold_left]. rewrite IH by done. unfold place.
  destruct (_ >? W); cbn [positions]; by apply list_lookup_insert_ne.
Qed.

(** The entry of the [k]-th visited index is the [k]-th offset of the
    recurrence. *)
Lemma fold_place_lookup order st k idx :
  NoDup order ->
  (forall i, i ∈ order -> (i < length (positions st))%nat) ->
  order !! k = Some idx ->
  positions (fold_left (place images padding W) order st) !! idx =
  Some (cursor_offsets W padding (current_x st) (current_y st) (row_height st)
          (sizes order) !! k).
Proof.
  revert st k. induction order as [|i order IH]; intros st k Hnd Hlt Hk; [done |].
  apply NoDup_cons in Hnd as [Hi Hnd].
  cbn [fold_left sizes_in_order map cursor_offsets].
  destruct k as [|k]; simpl in Hk.
  - injection Hk as ->. rewrite fold_place_other by done.
    unfold place.
    destruct (_ >? W); cbn [positions lookup list_lookup];
      (rewrite list_lookup_insert_eq; [done | apply Hlt; constructor]).
  - rewrite (IH _ k Hnd).
    + unfold place.
      by destruct (current_x st + width (images !!! i) + padding >? W).
    + intros j Hj. unfold place.
      destruct (_ >? W); cbn [positions]; rewrite length_insert;
        apply Hlt; by constructor.
    + done.
Qed.

End Loop.

(** There is one entry of [positions] for every image. *)
Lemma shelf_pack_length images padding W :
  length (positions (shelf_pack images padding W)) = length images.
Proof.
  unfold shelf_pack. rewrite fold_place_length. simpl. apply length_replicate.
Qed.

Lemma shelf_pack_lookup images padding W k idx :
  sorted_indices images !! k = Some idx ->
  positions (shelf_pack images padding W) !! idx =
  Some (cursor_offsets W padding padding padding 0
          (sizes_in_order images (sorted_indices images)) !! k).
Proof.
  intros Hk. unfold shelf_pack.
  rewrite (fold_place_lookup images padding W _ _ k idx); [done | | | done].
  - apply sorted_indices_NoDup.
  - intros i Hi. simpl. rewrite length_replicate.
    by apply sorted_indices_lt.
Qed.

Lemma cursor_offsets_length W padding cx cy rh sizes :
  length (cursor_offsets W padding cx cy rh sizes) = length sizes.
Proof.
  revert cx cy rh. induction sizes as [|[w h] sizes IH]; intros; [done |].
  cbn [cursor_offsets]. destruct (_ >? W); simpl; by rewrite IH.
Qed.

(** Every image gets an offset. *)
Lemma shelf_pack_placed images padding W idx :
  (idx < length images)%nat ->
  exists x y, positions (shelf_pack images padding W) !! idx = Some (Some (x, y)).
Proof.
  intros Hidx.
  assert (Hin : idx ∈ sorted_indices images)
    by (rewrite sorted_indices_perm, elem_of_seq; lia).
  apply list_elem_of_lookup in Hin as [k Hk].
  rewrite (shelf_pack_lookup _ _ _ k) by done.
  destruct (cursor_offsets W padding padding padding 0
              (sizes_in_order images (sorted_indices images)) !! k)
    as [[x y]|] eqn:Ho; [by eauto |].
  apply lookup_ge_None in Ho.
  rewrite cursor_offsets_length in Ho. unfold sizes_in_order in Ho.
  rewrite length_map in Ho. apply lookup_lt_Some in Hk. lia.
Qed.

(** ** Properties of the cursor recurrence *)

Section Recurrence.

Variable W padding : Z.
Hypothesis padding_nonneg : 0 <= padding.

(** An offset recorded from cursor [(cx, cy, rh)] on is either on the current
    row, right of the cursor, or below the current row. *)
Lemma cursor_offsets_later sizes cx cy rh k x y :
  0 <= rh -> Forall nonneg_size sizes ->
  cursor_offsets W padding cx cy rh sizes !! k = Some (x, y) ->
  (y = cy /\ cx <= x) \/ cy + rh + padding <= y.
Proof.
  revert cx cy rh k.
  induction sizes as [|[w h] sizes IH]; intros cx cy rh k Hrh Hs Hk; [done |].
  apply Forall_cons in Hs as [[Hw Hh] Hs]. simpl in Hw, Hh.
  cbn [cursor_offsets] in Hk.
  destruct (cx + w + padding >? W); destruct k as [|k]; simpl in Hk.
  - injection Hk as <- <-. right. lia.
  - apply IH in Hk; [lia | lia | done].
  - injection Hk as <- <-. left. lia.
  - apply IH in Hk; [lia | lia | done].
Qed.

(** Two offsets of the recurrence: the later one is right of the earlier
    rectangle on the same row, or below it, with the padding between. *)
Lemma cursor_offsets_disjoint sizes cx cy rh a b xa ya wa ha xb yb :
  0 <= rh -> Forall nonneg_size sizes -> (a < b)%nat ->
  cursor_offsets W padding cx cy rh sizes !! a = Some (xa, ya) ->
  sizes !! a = Some (wa, ha) ->
  cursor_offsets W padding cx cy rh sizes !! b = Some (xb, yb) ->
  xa + wa + padding <= xb \/ ya + ha + padding <= yb.
Proof.
  revert cx cy rh a b.
  induction sizes as [|[w h] sizes IH]; intros cx cy rh a b Hrh Hs Hab Ha Hsa Hb;
    [done |].
  pose proof Hs as Hs'. apply Forall_cons in Hs' as [[Hw Hh] Hs']. simpl in Hw, Hh.
  destruct b as [|b]; [lia |].
  cbn [cursor_offsets] in Ha, Hb.
  destruct a as [|a].
  - simpl in Hsa. injection Hsa as -> ->.
    destruct (cx + wa + padding >? W); simpl in Ha, Hb;
      injection Ha as <- <-;
      apply cursor_offsets_later in Hb; try done; lia.
  - simpl in Hsa.
    destruct (cx + w + padding >? W); simpl in Ha, Hb;
      (eapply (IH _ _ _ a b); [| done | lia | exact Ha | exact Hsa | exact Hb]); lia.
Qed.

(** The bottom of the current row never moves up. *)
Lemma cursor_end_mono sizes cx cy rh :
  0 <= rh -> Forall nonneg_size sizes ->
  let '(_, cy', rh') := cursor_end W padding cx cy rh sizes in
  cy + rh <= cy' + rh' /\ 0 <= rh'.
Proof.
  revert cx cy rh.
  induction sizes as [|[w h] sizes IH]; intros cx cy rh Hrh Hs; [simpl; lia |].
  apply Forall_cons in Hs as [[Hw Hh] Hs]. simpl in Hw, Hh.
  cbn [cursor_end].
  destruct (cx + w + padding >? W).
  - specialize (IH (padding + (w + padding)) (cy + (rh + padding))
                   (Z.max 0 h) ltac:(lia) Hs).
    destruct (cursor_end _ _ _ _ _ sizes) as [[? cy'] rh']. lia.
  - specialize (IH (cx + (w + padding)) cy (Z.max rh h) ltac:(lia) Hs).
    destruct (cursor_end _ _ _ _ _ sizes) as [[? cy'] rh']. lia.
Qed.

(** The realized height covers every recorded rectangle. *)
Lemma cursor_end_covers sizes cx cy rh k x y w h :
  0 <= rh -> Forall nonneg_size sizes ->
  cursor_offsets W padding cx cy rh sizes !! k = Some (x, y) ->
  sizes !! k = Some (w, h) ->
  let '(_, cy', rh') := cursor_end W padding cx cy rh sizes in
  y + h <= cy' + rh'.
Proof.
  revert cx cy rh k.
  induction sizes as [|[w0 h0] sizes IH]; intros cx cy rh k Hrh Hs Hk Hsk; [done |].
  apply Forall_cons in Hs as [[Hw Hh] Hs]. simpl in Hw, Hh.
  cbn [cursor_offsets cursor_end] in *.
  destruct k as [|k]; simpl in Hsk.
  - injection Hsk as -> ->.
    destruct (cx + w + padding >? W); simpl in Hk; injection Hk as <- <-.
    + pose proof (cursor_end_mono sizes (padding + (w + padding))
                    (cy + (rh + padding)) (Z.max 0 h) ltac:(lia) Hs) as Hmono.
      destruct (cursor_end _ _ _ _ _ sizes) as [[? cy'] rh']. lia.
    + pose proof (cursor_end_mono sizes (cx + (w + padding)) cy (Z.max rh h)
                    ltac:(lia) Hs) as Hmono.
      destruct (cursor_end _ _ _ _ _ sizes) as [[? cy'] rh']. lia.
  - destruct (cx + w0 + padding >? W); simpl in Hk.
    + eapply (IH _ _ _ k); [| done | exact Hk | exact Hsk]. lia.
    + eapply (IH _ _ _ k); [| done | exact Hk | exact Hsk]. lia.
Qed.

(** An image that fits the estimated width with its padding on both sides
    ends before the right border. *)
Lemma cursor_offsets_in_width sizes cx cy rh k x y w h :
  Forall (fun s => s.1 + 2 * padding <= W) sizes ->
  cursor_offsets W padding cx cy rh sizes !! k = Some (x, y) ->
  sizes !! k = Some (w, h) ->
  x + w + padding <= W.
Proof.
  revert cx cy rh k.
  induction sizes as [|[w0 h0] sizes IH]; intros cx cy rh k Hs Hk Hsk; [done |].
  apply Forall_cons in Hs as [Hw Hs]. simpl in Hw.
  cbn [cursor_offsets] in Hk.
  destruct k as [|k]; simpl in Hsk.
  - injection Hsk as -> ->.
    destruct (Z.gtb_spec (cx + w + padding) W); simpl in Hk;
      injection Hk as <- <-; lia.
  - destruct (cx + w0 + padding >? W); simpl in Hk;
      by eapply (IH _ _ _ k).
Qed.

End Recurrence.

(** ** The structure of [pack_images] *)


Lemma paste_size atlas img x y :
  width (paste atlas img x y) = width atlas /\
  height (paste atlas img x y) = height atlas.
Proof. done. Qed.

Lemma compose_size images : forall atlas pos atlas',
  compose atlas images pos = Ok atlas' ->
  width atlas' = width atlas /\ height atlas' = height atlas.
Proof.
  induction images as [|img images IH]; intros atlas pos atlas' Hc; simpl in Hc.
  - by injection Hc as <-.
  - destruct pos as [|[[x y]|] pos]; try done.
    apply IH in Hc. by rewrite !(proj1 (paste_size _ _ _ _)) in Hc.
Qed.

(** Composition raises only if an image is left without offset. *)
Lemma compose_ok images : forall atlas pos,
  (forall i, (i < length images)%nat -> exists x y, pos !! i = Some (Some (x, y))) ->
  exists atlas', compose atlas images pos = Ok atlas'.
Proof.
  induction images as [|img images IH]; intros atlas pos Hpos; simpl.
  - by eexists.
  - destruct (Hpos 0%nat ltac:(simpl; lia)) as (x & y & H0).
    destruct pos as [|o pos]; [done |]. simpl in H0. injection H0 as ->.
    apply IH. intros i Hi. apply (Hpos (S i)). simpl. lia.
Qed.

Lemma pack_images_inv images padding atlas pos :
  images <> [] -> pack_images images padding = Ok (atlas, pos) ->
  exists W, estimate_width images padding = Ok W /\
    pos = positions (shelf_pack images padding W) /\
    compose (blank_sheet images padding W) images pos = Ok atlas.
Proof.
  intros Hne Hp. destruct images as [|img images]; [done |].
  unfold pack_images in Hp.
  apply bind_Ok_inv in Hp as (W & HW & Hp). exists W. split; [done |].
  cbv zeta in Hp. apply bind_Ok_inv in Hp as (a & Hc & Hp).
  injection Hp as <- <-. done.
Qed.

(** Once the width is estimated, the composition finds a position for every
    image (the allocation of the sheet is not modelled as failing). *)
Lemma pack_images_ok images padding W :
  images <> [] -> estimate_width images padding = Ok W ->
  exists atlas,
    pack_images images padding =
    Ok (atlas, positions (shelf_pack images padding W)).
Proof.
  intros Hne HW. destruct images as [|img images]; [done |].
  destruct (compose_ok (img :: images) (blank_sheet (img :: images) padding W)
              (positions (shelf_pack (img :: images) padding W)))
    as [atlas Hc].
  { intros i Hi. by apply shelf_pack_placed. }
  exists atlas. unfold pack_images. rewrite HW, bind_Ok. cbv zeta.
  fold (blank_sheet (img :: images) padding W). by rewrite Hc.
Qed.

Lemma pack_images_sheet_size images padding atlas pos W :
  images <> [] -> pack_images images padding = Ok (atlas, pos) ->
  estimate_width images padding = Ok W ->
  width atlas = final_size padding W (shelf_pack images padding W) /\
  height atlas = final_size padding W (shelf_pack images padding W).
Proof.
  intros Hne Hp HW. apply pack_images_inv in Hp as (W' & HW' & -> & Hc); [| done].
  rewrite HW in HW'. injection HW' as <-.
  by apply compose_size in Hc.
Qed.

Lemma estimate_width_pos images padding W :
  estimate_width images padding = Ok W -> is_pow2 W /\ 1 <= W.
Proof.
  unfold estimate_width. intros HW.
  apply bind_Ok_inv in HW as (r & _ & HW).
  apply bind_Ok_inv in HW as (c & _ & HW).
  injection HW as <-. split; [apply round_pow2_is_pow2 | apply round_pow2_pos].
Qed.

(** The placement of image [i] in a result of [pack_images], by its rank [k]
    in the packing order. *)
Lemma placement_by_rank images padding W i k x y w h :
  sorted_indices images !! k = Some i ->
  placement images (positions (shelf_pack images padding W)) i = Some (x, y, w, h) ->
  cursor_offsets W padding padding padding 0
    (sizes_in_order images (sorted_indices images)) !! k = Some (x, y) /\
  sizes_in_order images (sorted_indices images) !! k = Some (w, h).
Proof.
  intros Hk Hp. unfold placement in Hp.
  destruct (images !! i) as [img|] eqn:Hi; [| done].
  rewrite (shelf_pack_lookup _ _ _ k) in Hp by done.
  destruct (cursor_offsets _ _ _ _ _ _ !! k) as [[x' y']|]; [| done].
  injection Hp as -> -> <- <-. split; [done |].
  unfold sizes_in_order. rewrite list_lookup_fmap, Hk. simpl.
  by rewrite (list_lookup_total_correct _ _ _ Hi).
Qed.

Lemma sizes_in_order_nonneg images order :
  Forall positive_size images -> Forall (fun i => (i < length images)%nat) order ->
  Forall nonneg_size (sizes_in_order images order).
Proof.
  intros Himg Hord. unfold sizes_in_order. apply Forall_fmap.
  eapply Forall_impl; [exact Hord |]. intros i Hi. simpl.
  apply lookup_lt_is_Some in Hi as [img Hi].
  rewrite (list_lookup_total_correct _ _ _ Hi).
  rewrite Forall_forall in Himg.
  destruct (Himg img) as [? ?]; [by eapply list_elem_of_lookup_2 |].
  unfold nonneg_size. simpl. lia.
Qed.

Lemma sorted_indices_Forall_lt images :
  Forall (fun i => (i < length images)%nat) (sorted_indices images).
Proof. apply Forall_forall. intros i. apply sorted_indices_lt. Qed.

(** ** Texels: [paste], [compose] and [crop] *)

Lemma in_rect_spec x y w h i j :
  in_rect x y w h i j = true <-> x <= i < x + w /\ y <= j < y + h.
Proof. unfold in_rect. rewrite !andb_true_iff. lia. Qed.

(** The index of a texel in the buffer. *)
Lemma index_div_mod W i j : 0 <= i < W -> 0 <= j ->
  (j * W + i) mod W = i /\ (j * W + i) / W = j.
Proof.
  intros Hi Hj. split.
  - rewrite Z.add_comm, Z.mod_add by lia. apply Z.mod_small. lia.
  - rewrite Z.add_comm, Z.div_add by lia. rewrite Z.div_small by lia. lia.
Qed.

Lemma getpixel_wf img i j :
  wf_image img -> 0 <= i < width img -> 0 <= j < height img ->
  is_Some (getpixel img i j).
Proof.
  intros (Hw & Hh & Hlen) Hi Hj. unfold getpixel.
  replace ((0 <=? i) && (i <? width img) && (0 <=? j) && (j <? height img))
    with true by (symmetry; rewrite !andb_true_iff; lia).
  apply lookup_lt_is_Some. nia.
Qed.

(** [paste] replaces the texels of the rectangle that lie on the sheet and
    leaves the others. *)
Lemma getpixel_paste atlas img x y u v :
  getpixel (paste atlas img x y) u v =
  if in_rect x y (width img) (height img) u v
  then (fun old => default old (getpixel img (u - x) (v - y))) <$> getpixel atlas u v
  else getpixel atlas u v.
Proof.
  unfold getpixel at 1 3 4. cbn [paste width height pixels].
  destruct ((0 <=? u) && (u <? width atlas) && (0 <=? v) && (v <? height atlas))
    eqn:Hb; [| by destruct (in_rect _ _ _ _ _ _)].
  rewrite !andb_true_iff in Hb.
  rewrite list_lookup_imap, Z2Nat.id by nia.
  destruct (index_div_mod (width atlas) u v) as [-> ->]; [lia | lia |].
  destruct (in_rect x y (width img) (height img) u v);
    by destruct (pixels atlas !! _).
Qed.

Lemma paste_wf atlas img x y : wf_image atlas -> wf_image (paste atlas img x y).
Proof.
  intros (Hw & Hh & Hlen). unfold wf_image. cbn [paste width height pixels].
  by rewrite length_imap.
Qed.

Lemma Image_new_wf w h c : 0 <= w -> 0 <= h -> wf_image (Image_new w h c).
Proof.
  intros Hw Hh. unfold wf_image, Image_new. cbn [width height pixels].
  rewrite length_replicate. nia.
Qed.

(** A texel that no rectangle covers is left as it was. *)
Lemma compose_getpixel_other images : forall atlas pos final u v,
  compose atlas images pos = Ok final ->
  (forall j img x y, images !! j = Some img -> pos !! j = Some (Some (x, y)) ->
     in_rect x y (width img) (height img) u v = false) ->
  getpixel final u v = getpixel atlas u v.
Proof.
  induction images as [|img images IH]; intros atlas pos final u v Hc Hout;
    simpl in Hc.
  - by injection Hc as <-.
  - destruct pos as [|[[x y]|] pos]; try done.
    rewrite (IH _ _ _ u v Hc).
    + rewrite getpixel_paste. by rewrite (Hout 0%nat img x y).
    + intros j img' x' y' Hj Hp. by apply (Hout (S j)).
Qed.

(** A texel of the rectangle of image [i] that lies on the sheet and in no
    rectangle pasted later holds the texel of the image. *)
Lemma compose_getpixel_at images : forall atlas pos final i img x y u v,
  compose atlas images pos = Ok final -> wf_image atlas -> wf_image img ->
  images !! i = Some img -> pos !! i = Some (Some (x, y)) ->
  (forall j img' x' y', (i < j)%nat ->
     images !! j = Some img' -> pos !! j = Some (Some (x', y')) ->
     in_rect x' y' (width img') (height img') u v = false) ->
  in_rect x y (width img) (height img) u v = true ->
  0 <= u < width atlas -> 0 <= v < height atlas ->
  getpixel final u v = getpixel img (u - x) (v - y).
Proof.
  induction images as [|img0 images IH];
    intros atlas pos final i img x y u v Hc Hwf Hwfi Hi Hp Hlater Hin Hu Hv;
    [done |].
  simpl in Hc. destruct pos as [|[[x0 y0]|] pos]; try done.
  destruct i as [|i]; simpl in Hi, Hp.
  - injection Hi as ->. injection Hp as -> ->.
    rewrite (compose_getpixel_other _ _ _ _ u v Hc).
    + rewrite getpixel_paste, Hin.
      apply in_rect_spec in Hin.
      destruct (getpixel_wf atlas u v Hwf Hu Hv) as [old ->].
      destruct (getpixel_wf img (u - x) (v - y) Hwfi) as [p ->]; [lia | lia |].
      done.
    + intros j img' x' y' Hj Hp'. apply (Hlater (S j)); [lia | done | done].
  - apply (IH _ _ _ i img x y u v Hc); try done.
    + by apply paste_wf.
    + intros j img' x' y' Hij Hj Hp'. apply (Hlater (S j)); [lia | done | done].
Qed.

(** Reading back a rectangle of the size of a well-formed image whose texels
    are those of the image gives the buffer of the image. *)
Lemma crop_eq_pixels sheet img x y :
  wf_image img -> 0 < width img ->
  (forall i j, 0 <= i < width img -> 0 <= j < height img ->
     getpixel sheet (x + i) (y + j) = getpixel img i j) ->
  pixels (crop sheet x y (width img) (height img)) = pixels img.
Proof.
  intros Hwf Hw Hpx. pose proof Hwf as (_ & Hh & Hlen).
  unfold crop. cbn [pixels].
  apply list_eq. intros k. rewrite list_lookup_fmap.
  destruct (decide (k < Z.to_nat (width img * height img))%nat) as [Hk | Hk].
  - rewrite lookup_seq_lt by done. simpl.
    pose proof (Z.div_mod (Z.of_nat k) (width img) ltac:(lia)) as Hdm.
    pose proof (Z.mod_pos_bound (Z.of_nat k) (width img) Hw) as Hmod.
    assert (Hdiv : 0 <= Z.of_nat k / width img < height img).
    { split; [apply Z.div_pos; lia |].
      apply Z.div_lt_upper_bound; [lia |]. lia. }
    rewrite Hpx by lia.
    unfold getpixel.
    replace ((0 <=? Z.of_nat k mod width img) &&
             (Z.of_nat k mod width img <? width img) &&
             (0 <=? Z.of_nat k / width img) &&
             (Z.of_nat k / width img <? height img))
      with true by (symmetry; rewrite !andb_true_iff; lia).
    replace (Z.to_nat (Z.of_nat k / width img * width img +
                       Z.of_nat k mod width img)) with k by lia.
    destruct (pixels img !! k) eqn:Hl; [done |].
    apply lookup_ge_None in Hl. lia.
  - rewrite lookup_seq_ge by lia. simpl. symmetry.
    apply lookup_ge_None. lia.
Qed.

(** ** What holds when every image fits the estimated width *)

(** Offsets keep the padding to the left and to the top. *)
Lemma cursor_offsets_lower W padding sizes : forall cx cy rh k x y,
  0 <= padding -> padding <= cx -> padding <= cy -> 0 <= rh ->
  Forall nonneg_size sizes ->
  cursor_offsets W padding cx cy rh sizes !! k = Some (x, y) ->
  padding <= x /\ padding <= y.
Proof.
  induction sizes as [|[w h] sizes IH]; intros cx cy rh k x y Hp Hcx Hcy Hrh Hs Hk;
    [done |].
  apply Forall_cons in Hs as [[Hw Hh] Hs]. simpl in Hw, Hh.
  cbn [cursor_offsets] in Hk.
  destruct (cx + w + padding >? W); destruct k as [|k]; simpl in Hk;
    try (injection Hk as <- <-; lia);
    (eapply (IH _ _ _ k); [| | | | done | exact Hk]; lia).
Qed.

Lemma placement_rank images pos n c :
  placement images pos n = Some c ->
  exists k, sorted_indices images !! k = Some n.
Proof.
  intros Hn. apply list_elem_of_lookup.
  rewrite sorted_indices_perm, elem_of_seq.
  unfold placement in Hn. destruct (images !! n) eqn:Hl; [| done].
  apply lookup_lt_Some in Hl. lia.
Qed.

(** The disjointness of two placements, by rank in the packing order. *)
Lemma placements_disjoint images padding W i j a b :
  Forall positive_size images -> 0 <= padding -> i <> j ->
  placement images (positions (shelf_pack images padding W)) i = Some a ->
  placement images (positions (shelf_pack images padding W)) j = Some b ->
  padded_disjoint padding a b.
Proof.
  intros Hpos Hpad Hij Ha Hb.
  destruct (placement_rank _ _ _ _ Ha) as [ki Hki].
  destruct (placement_rank _ _ _ _ Hb) as [kj Hkj].
  destruct a as [[[xa ya] wa] ha]. destruct b as [[[xb yb] wb] hb].
  destruct (placement_by_rank _ _ _ _ _ _ _ _ _ Hki Ha) as [Hoa Hsa].
  destruct (placement_by_rank _ _ _ _ _ _ _ _ _ Hkj Hb) as [Hob Hsb].
  pose proof (sizes_in_order_nonneg images _ Hpos (sorted_indices_Forall_lt images))
    as Hsz.
  unfold padded_disjoint. cbn beta iota.
  destruct (Nat.lt_total ki kj) as [Hlt | [Heq | Hgt]].
  - assert (xa + wa + padding <= xb \/ ya + ha + padding <= yb); [| lia].
    eapply (cursor_offsets_disjoint W padding Hpad _ _ _ _ ki kj);
      [| exact Hsz | exact Hlt | exact Hoa | exact Hsa | exact Hob]; lia.
  - subst kj. rewrite Hki in Hkj. by injection Hkj.
  - assert (xb + wb + padding <= xa \/ yb + hb + padding <= ya); [| lia].
    eapply (cursor_offsets_disjoint W padding Hpad _ _ _ _ kj ki);
      [| exact Hsz | exact Hgt | exact Hob | exact Hsb | exact Hoa]; lia.
Qed.

(** Containment holds as soon as every image, with the padding on both
    sides, is not wider than the estimated width: the case that the code
    misses is the only one in which a placement leaves the sheet. *)
Lemma containment_when_fits images padding atlas pos W i a :
  Forall positive_size images -> 0 <= padding ->
  pack_images images padding = Ok (atlas, pos) ->
  estimate_width images padding = Ok W ->
  Forall (fun img => width img + 2 * padding <= W) images ->
  placement images pos i = Some a ->
  inside atlas a.
Proof.
  intros Hpos Hpad Hp HW Hfit Ha.
  assert (Hne : images <> []) by (intros ->; done).
  destruct (pack_images_sheet_size _ _ _ _ _ Hne Hp HW) as [Hw Hh].
  destruct (pack_images_inv _ _ _ _ Hne Hp) as (W' & HW' & -> & _).
  rewrite HW in HW'. injection HW' as <-.
  destruct (placement_rank _ _ _ _ Ha) as [k Hk].
  destruct a as [[[x y] w] h].
  destruct (placement_by_rank _ _ _ _ _ _ _ _ _ Hk Ha) as [Ho Hs].
  pose proof (sizes_in_order_nonneg images _ Hpos (sorted_indices_Forall_lt images))
    as Hsz.
  assert (Hx : x + w + padding <= W).
  { eapply (cursor_offsets_in_width W padding _ _ _ _ k); [| exact Ho | exact Hs].
    unfold sizes_in_order. apply Forall_fmap, Forall_forall. intros n Hn. simpl.
    apply sorted_indices_lt, lookup_lt_is_Some in Hn as [img Hn].
    rewrite (list_lookup_total_correct _ _ _ Hn).
    rewrite Forall_forall in Hfit. apply Hfit. by eapply list_elem_of_lookup_2. }
  pose proof (cursor_end_covers W padding Hpad _ padding padding 0 k x y w h
                ltac:(lia) Hsz Ho Hs) as Hy.
  pose proof (fold_place_cursor images padding W (sorted_indices images)
                (shelf_init images padding)) as Hend.
  fold (shelf_pack images padding W) in Hend.
  cbn [shelf_init current_x current_y row_height] in Hend.
  rewrite <- Hend in Hy. unfold cursor_of in Hy.
  set (st := shelf_pack images padding W) in *.
  pose proof (round_pow2_smallest
                (Z.max W (current_y st + row_height st + padding))) as Hsm.
  destruct (estimate_width_pos _ _ _ HW) as [_ HW1].
  destruct Hsm as (_ & Hge & _); [lia |].
  unfold inside. rewrite Hw, Hh. unfold final_size. lia.
Qed.

(** Pixel fidelity holds for every placement that lies inside the sheet. *)
Lemma roundtrip_when_inside images padding atlas pos i img x y :
  Forall wf_image images -> Forall positive_size images -> 0 <= padding ->
  pack_images images padding = Ok (atlas, pos) ->
  images !! i = Some img ->
  placement images pos i = Some (x, y, width img, height img) ->
  inside atlas (x, y, width img, height img) ->
  pixels (crop atlas x y (width img) (height img)) = pixels img.
Proof.
  intros Hwf Hpos Hpad Hp Hi Ha [Hinx Hiny].
  assert (Hne : images <> []) by (intros ->; done).
  destruct (pack_images_inv _ _ _ _ Hne Hp) as (W & HW & -> & Hc).
  destruct (compose_size _ _ _ _ Hc) as [Hcw Hch].
  destruct (placement_rank _ _ _ _ Ha) as [k Hk].
  destruct (placement_by_rank _ _ _ _ _ _ _ _ _ Hk Ha) as [Ho Hs].
  pose proof (sizes_in_order_nonneg images _ Hpos (sorted_indices_Forall_lt images))
    as Hsz.
  destruct (cursor_offsets_lower W padding _ padding padding 0 k x y Hpad
              ltac:(lia) ltac:(lia) ltac:(lia) Hsz Ho) as [Hx Hy].
  rewrite Forall_forall in Hwf, Hpos.
  pose proof (Hwf img (list_elem_of_lookup_2 _ _ _ Hi)) as Hwfi.
  destruct (Hpos img (list_elem_of_lookup_2 _ _ _ Hi)) as [Hwi Hhi].
  apply crop_eq_pixels; [done | done |]. intros u v Hu Hv.
  rewrite (compose_getpixel_at _ _ _ _ i img x y (x + u) (y + v) Hc);
    try done; try lia.
  - f_equal; lia.
  - unfold blank_sheet. apply Image_new_wf;
      pose proof (round_pow2_pos
        (Z.max W (current_y (shelf_pack images padding W) +
                  row_height (shelf_pack images padding W) + padding)));
      unfold final_size; lia.
  - unfold placement in Ha. rewrite Hi in Ha.
    destruct (positions (shelf_pack images padding W) !! i) as [[[x' y']|]|];
      try done. by injection Ha as -> ->.
  - intros j img' x' y' Hij Hj Hpj.
    assert (Hb : placement images (positions (shelf_pack images padding W)) j =
                 Some (x', y', width img', height img'))
      by (unfold placement; by rewrite Hj, Hpj).
    pose proof (placements_disjoint images padding W i j _ _
                  ltac:(by apply Forall_forall) Hpad ltac:(lia) Ha Hb) as Hd.
    unfold padded_disjoint in Hd. cbn beta iota in Hd.
    apply not_true_is_false. rewrite in_rect_spec. lia.
  - apply in_rect_spec. lia.
Qed.

(** ** The claims of the specification *)

(** C1. The scenario of the specification: the images img2 (20x50),
    img1 (40x30) and img3 (10x10), given in this order with a padding of 2,
    are packed in the order img2, img1, img3, the estimated width is 64, and
    [pack_images] returns the placements (2,2,20,50), (2,54,40,30) and
    (44,54,10,10) on a sheet of 128x128. *)
Theorem C1_scenario px2 px1 px3 :
  let images := scenario px2 px1 px3 in
  sorted_indices images = [0; 1; 2]%nat /\
  total_area images 2 = 2632 /\
  estimate_width images 2 = Ok 64 /\
  exists atlas pos,
    pack_images images 2 = Ok (atlas, pos) /\
    width atlas = 128 /\ height atlas = 128 /\
    placement images pos 0 = Some (2, 2, 20, 50) /\
    placement images pos 1 = Some (2, 54, 40, 30) /\
    placement images pos 2 = Some (44, 54, 10, 10).
Proof.
  intros images.
  assert (HW : estimate_width images 2 = Ok 64) by (vm_compute; reflexivity).
  repeat split; try (vm_compute; reflexivity).
  destruct (pack_images_ok images 2 64 ltac:(done) HW) as [atlas Hp].
  exists atlas, (positions (shelf_pack images 2 64)).
  split; [exact Hp |].
  destruct (pack_images_sheet_size images 2 _ _ 64 ltac:(done) Hp HW) as [-> ->].
  repeat split; vm_compute; reflexivity.
Qed.

(** C5. On the empty list of images [pack_images] succeeds: it returns a
    sheet of 1x1 whose only texel is transparent, and no placement. *)
Theorem C5_empty_input padding :
  pack_images [] padding = Ok (mkImage 1 1 [transparent], []).
Proof. reflexivity. Qed.

(** C6. For every non-empty input, the sheet that [pack_images] returns is
    square, and its side is the smallest power of two that is not below
    [max(W, H)], for the realized extent [(W, H)] of the packing. *)
Theorem C6_square_power_of_two images padding atlas pos :
  images <> [] -> pack_images images padding = Ok (atlas, pos) ->
  exists W, estimate_width images padding = Ok W /\
    let st := shelf_pack images padding W in
    let H := current_y st + row_height st + padding in
    width atlas = height atlas /\
    is_pow2 (width atlas) /\
    smallest_pow2_ge (Z.max W H) (width atlas).
Proof.
  intros Hne Hp.
  destruct (pack_images_inv _ _ _ _ Hne Hp) as (W & HW & _ & _).
  exists W. split; [exact HW |]. intros st H.
  destruct (pack_images_sheet_size _ _ _ _ W Hne Hp HW) as [Hw Hh].
  fold st in Hw, Hh. rewrite Hw, Hh. unfold final_size. fold H.
  destruct (estimate_width_pos _ _ _ HW) as [_ HW1].
  split; [reflexivity |]. split; [apply round_pow2_is_pow2 |].
  apply round_pow2_smallest. lia.
Qed.

Lemma C6_witness :
  exists atlas pos,
    pack_images small_input 1 = Ok (atlas, pos) /\
    exists W, estimate_width small_input 1 = Ok W /\
      let st := shelf_pack small_input 1 W in
      let H := current_y st + row_height st + 1 in
      width atlas = height atlas /\
      is_pow2 (width atlas) /\
      smallest_pow2_ge (Z.max W H) (width atlas).
Proof.
  eexists. eexists. split; [vm_compute; reflexivity |].
  eapply (C6_square_power_of_two small_input 1);
    [discriminate | vm_compute; reflexivity].
Defined.

(** C3. For images of positive width and height and a padding that is not
    negative, the padded bounding boxes of two different placements that
    [pack_images] returns do not intersect: one of them ends, padding
    included, before the other one begins, on the x axis or on the y axis. *)
Theorem C3_no_overlap images padding atlas pos i j a b :
  Forall positive_size images -> 0 <= padding ->
  pack_images images padding = Ok (atlas, pos) ->
  i <> j ->
  placement images pos i = Some a -> placement images pos j = Some b ->
  padded_disjoint padding a b.
Proof.
  intros Hpos Hpad Hp Hij Ha Hb.
  assert (Hne : images <> []) by (intros ->; done).
  destruct (pack_images_inv _ _ _ _ Hne Hp) as (W & _ & -> & _).
  by eapply placements_disjoint.
Qed.

Lemma C3_witness :
  exists atlas pos a b,
    pack_images small_input 1 = Ok (atlas, pos) /\
    placement small_input pos 0 = Some a /\
    placement small_input pos 2 = Some b /\
    padded_disjoint 1 a b.
Proof.
  do 4 eexists.
  split; [vm_compute; reflexivity |].
  split; [vm_compute; reflexivity |].
  split; [vm_compute; reflexivity |].
  eapply (C3_no_overlap small_input 1 _ _ 0%nat 2%nat).
  - repeat constructor.
  - lia.
  - vm_compute; reflexivity.
  - lia.
  - vm_compute; reflexivity.
  - vm_compute; reflexivity.
Defined.

(** C8. For every input, the images are packed in the order of their height,
    descending, ties in input order, and the offset of each image is the one
    that the cursor recurrence records for it: the recurrence starts from
    [(cx, cy) = (padding, padding)] and [row_height = 0]; an image with
    [cx + width + padding > W] starts a new row ([cx = padding],
    [cy += row_height + padding], [row_height = 0]); the image is placed at
    [(cx, cy)], then [row_height = max(row_height, height)] and
    [cx += width + padding]. *)
Theorem C8_order_and_recurrence images padding :
  let order := sorted_indices images in
  height_desc_stable images order /\
  (forall W k idx, order !! k = Some idx ->
     positions (shelf_pack images padding W) !! idx =
     Some (cursor_offsets W padding padding padding 0
             (sizes_in_order images order) !! k)) /\
  (forall atlas pos, images <> [] ->
     pack_images images padding = Ok (atlas, pos) ->
     exists W, estimate_width images padding = Ok W /\
       pos = positions (shelf_pack images padding W)).
Proof.
  intros order. split; [apply sorted_indices_spec |]. split.
  - intros W k idx Hk. by apply shelf_pack_lookup.
  - intros atlas pos Hne Hp.
    destruct (pack_images_inv _ _ _ _ Hne Hp) as (W & HW & Hpos & _). eauto.
Qed.

Lemma C8_witness :
  exists atlas pos,
    pack_images small_input 1 = Ok (atlas, pos) /\
    exists W, estimate_width small_input 1 = Ok W /\
      pos = positions (shelf_pack small_input 1 W).
Proof.
  do 2 eexists. split; [vm_compute; reflexivity |].
  eapply (proj2 (proj2 (C8_order_and_recurrence small_input 1)));
    [discriminate | vm_compute; reflexivity].
Defined.

(** ** The layout does not depend on the texels *)

Lemma insert_desc_ext key key' i l :
  key i = key' i -> (forall j, j ∈ l -> key j = key' j) ->
  insert_desc key i l = insert_desc key' i l.
Proof.
  intros Hi. induction l as [|j l IH]; intros Hl; simpl; [done |].
  rewrite <- Hi, <- (Hl j) by constructor.
  destruct (key i <? key j); [| done].
  f_equal. apply IH. intros j' Hj'. apply Hl. by constructor.
Qed.

Lemma sorted_desc_ext key key' l :
  (forall j, j ∈ l -> key j = key' j) ->
  sorted_desc key l = sorted_desc key' l.
Proof.
  induction l as [|i l IH]; intros Hl; simpl; [done |].
  rewrite <- IH by (intros j Hj; apply Hl; by constructor).
  apply insert_desc_ext; [apply Hl; constructor |].
  intros j Hj. rewrite sorted_desc_perm in Hj. apply Hl. by constructor.
Qed.

Lemma same_sizes_lookup images images' idx :
  same_sizes images images' ->
  width (images !!! idx) = width (images' !!! idx) /\
  height (images !!! idx) = height (images' !!! idx).
Proof.
  intros Hsame. revert idx.
  induction Hsame as [|a b l l' Hab Hl IH]; intros idx; [done |].
  destruct idx as [|idx]; [exact Hab | apply IH].
Qed.

Lemma same_sizes_length images images' :
  same_sizes images images' -> length images = length images'.
Proof. apply Forall2_length. Qed.

Lemma same_sizes_sorted_indices images images' :
  same_sizes images images' -> sorted_indices images = sorted_indices images'.
Proof.
  intros Hsame. unfold sorted_indices.
  rewrite <- (same_sizes_length _ _ Hsame).
  apply sorted_desc_ext. intros j _. by apply same_sizes_lookup.
Qed.

Lemma same_sizes_total_area images images' padding :
  same_sizes images images' ->
  total_area images padding = total_area images' padding.
Proof.
  unfold total_area.
  induction 1 as [|a b l l' [Hw Hh] Hl IH]; simpl; [done |].
  by rewrite IH, Hw, Hh.
Qed.

Lemma same_sizes_estimate_width images images' padding :
  same_sizes images images' ->
  estimate_width images padding = estimate_width images' padding.
Proof.
  intros Hsame. unfold estimate_width.
  by rewrite (same_sizes_total_area _ _ _ Hsame).
Qed.

Lemma same_sizes_place images images' padding W st idx :
  same_sizes images images' ->
  place images padding W st idx = place images' padding W st idx.
Proof.
  intros Hsame. unfold place.
  destruct (same_sizes_lookup _ _ idx Hsame) as [-> ->]. done.
Qed.

Lemma same_sizes_shelf_pack images images' padding W :
  same_sizes images images' ->
  shelf_pack images padding W = shelf_pack images' padding W.
Proof.
  intros Hsame. unfold shelf_pack, shelf_init.
  rewrite (same_sizes_sorted_indices _ _ Hsame), (same_sizes_length _ _ Hsame).
  generalize (mkShelf padding padding 0 (replicate (length images') None)).
  induction (sorted_indices images') as [|idx order IH]; intros st; [done |].
  simpl. rewrite (same_sizes_place _ _ _ _ _ _ Hsame). apply IH.
Qed.

(** The layout of a non-empty input is a function of the estimated width
    and of the packing. *)
Lemma pack_images_layout images padding :
  images <> [] ->
  layout (pack_images images padding) =
  (W ← estimate_width images padding;
   let st := shelf_pack images padding W in
   let size := final_size padding W st in
   Ok (size, size, positions st)).
Proof.
  intros Hne. destruct (estimate_width images padding) as [W|e] eqn:HW.
  - destruct (pack_images_ok _ _ _ Hne HW) as [atlas Hp].
    destruct (pack_images_sheet_size _ _ _ _ _ Hne Hp HW) as [Hw Hh].
    rewrite Hp, bind_Ok. simpl. by rewrite Hw, Hh.
  - destruct images as [|img images]; [done |].
    unfold pack_images. by rewrite HW.
Qed.

(** C10. Two lists of images that agree pairwise in width and height, packed
    with the same padding, get the same list of positions and the same sheet
    size (and the same exception, if [pack_images] raises): the layout does
    not depend on the texels. *)
Theorem C10_layout_ignores_texels images images' padding :
  same_sizes images images' ->
  layout (pack_images images padding) = layout (pack_images images' padding).
Proof.
  intros Hsame. destruct Hsame as [|a b l l' Hab Hl]; [done |].
  assert (Hs : same_sizes (a :: l) (b :: l')) by (by constructor).
  rewrite !pack_images_layout by done.
  rewrite (same_sizes_estimate_width _ _ _ Hs).
  destruct (estimate_width (b :: l') padding) as [W|e]; [| done].
  rewrite !bind_Ok. cbv zeta.
  by rewrite (same_sizes_shelf_pack _ _ _ _ Hs).
Qed.

Lemma C10_witness :
  layout (pack_images small_input 1) = layout (pack_images small_input_clear 1).
Proof.
  apply (C10_layout_ignores_texels small_input small_input_clear 1).
  repeat constructor.
Defined.

(** ** The estimate of the width *)

Lemma total_area_nonneg images padding :
  Forall (fun img => 0 <= width img /\ 0 <= height img) images -> 0 <= padding ->
  0 <= total_area images padding.
Proof.
  intros Himg Hpad. unfold total_area.
  induction Himg as [|img images [Hw Hh] _ IH]; simpl; [lia | nia].
Qed.

Lemma total_area_pos images padding :
  images <> [] -> Forall positive_size images -> 0 <= padding ->
  1 <= total_area images padding.
Proof.
  intros Hne Himg Hpad.
  destruct Himg as [|img images [Hw Hh] Himg]; [done |].
  assert (0 <= total_area images padding).
  { apply total_area_nonneg; [| done].
    eapply Forall_impl; [exact Himg |]. intros ? [? ?]. lia. }
  unfold total_area in *. simpl. nia.
Qed.

(** Up to an area of [2 ^ 52] the estimate is computed exactly. *)
Lemma estimate_width_exact images padding :
  0 <= total_area images padding <= 2 ^ 52 ->
  estimate_width images padding =
  Ok (round_pow2 (Z.sqrt_up (total_area images padding))).
Proof.
  intros Hn. pose proof (ceil_sqrt_exact _ Hn) as Hc.
  unfold estimate_width.
  destruct (math_sqrt (total_area images padding)) as [r|e]; [| done].
  rewrite bind_Ok in *. by rewrite Hc.
Qed.

(** C7, amended. For a non-empty list of images of positive width and
    height, a padding that is not negative and a total padded area of at most
    [2 ^ 52], the estimated width is the smallest power of two that is not
    below the ceiling of the square root of the total padded area. *)
Theorem C7_estimated_width images padding :
  images <> [] -> Forall positive_size images -> 0 <= padding ->
  total_area images padding <= 2 ^ 52 ->
  exists W, estimate_width images padding = Ok W /\
    smallest_pow2_ge (ceil_sqrt_area images padding) W.
Proof.
  intros Hne Himg Hpad Hmax.
  pose proof (total_area_pos _ _ Hne Himg Hpad) as Hmin.
  eexists. split; [apply estimate_width_exact; lia |].
  apply round_pow2_smallest. unfold ceil_sqrt_area.
  by destruct (sqrt_up_bounds _ Hmin).
Qed.

Lemma C7_witness :
  exists W, estimate_width small_input 1 = Ok W /\
    smallest_pow2_ge (ceil_sqrt_area small_input 1) W.
Proof.
  apply (C7_estimated_width small_input 1).
  - discriminate.
  - repeat constructor.
  - lia.
  - vm_compute. discriminate.
Defined.

(** Without the positive sizes the estimate is not the smallest power of two
    either: an area of zero gives [1 << (0 - 1).bit_length() = 2]. *)
Lemma estimate_width_zero_area :
  total_area [empty_image] 0 = 0 /\ estimate_width [empty_image] 0 = Ok 2 /\
  smallest_pow2_ge (ceil_sqrt_area [empty_image] 0) 1.
Proof.
  split; [reflexivity |]. split; [reflexivity |].
  change (ceil_sqrt_area [empty_image] 0) with 0.
  split; [by exists 0 |]. split; [lia |].
  intros r' (k & Hk & ->). pose proof (Z.pow_pos_nonneg 2 k ltac:(lia) Hk). lia.
Qed.

(** C7 as the specification states it, for every area, fails: beyond
    [2 ^ 52] the square root is rounded.  Four images of 3x3, 2x2, 1x2 and
    1x2 with a padding of 33554430 have a padded area of [2 ^ 52 + 1], whose
    square root has the ceiling [2 ^ 26 + 1]; the double that [math.sqrt]
    returns is [2 ^ 26], and so is the estimated width. *)
Lemma C7_counterexample :
  tiny_images <> [] /\ Forall positive_size tiny_images /\ 0 <= huge_padding /\
  total_area tiny_images huge_padding = 2 ^ 52 + 1 /\
  estimate_width tiny_images huge_padding = Ok (2 ^ 26) /\
  ~ (exists W, estimate_width tiny_images huge_padding = Ok W /\
       smallest_pow2_ge (ceil_sqrt_area tiny_images huge_padding) W).
Proof.
  assert (HW : estimate_width tiny_images huge_padding = Ok (2 ^ 26))
    by (vm_compute; reflexivity).
  split; [discriminate |]. split; [repeat constructor |].
  split; [unfold huge_padding; lia |].
  split; [vm_compute; reflexivity |]. split; [exact HW |].
  intros (W & HW' & _ & Hge & _). rewrite HW in HW'. injection HW' as <-.
  revert Hge. vm_compute. intros Hge. by apply Hge.
Qed.

(** ** Images without texels *)

(** The estimate raises neither for an area of zero nor for any area below
    [2 ^ 1023]. *)
Lemma estimate_width_returns images padding :
  0 <= total_area images padding < 2 ^ 1023 ->
  exists W, estimate_width images padding = Ok W.
Proof.
  intros Hn. destruct (ceil_sqrt_returns _ Hn) as [c Hc].
  unfold estimate_width.
  destruct (math_sqrt (total_area images padding)) as [r|e]; [| done].
  rewrite bind_Ok in *. rewrite Hc. by eexists.
Qed.




(** ** An image that is wider than the estimated width *)

(** C2 fails on the code.  One image of 16x2 with a padding of 1: the
    estimated width is 8, the image starts a row of its own at (1, 2), the
    sheet is 8x8, and the placement (1, 2, 16, 2) ends at x = 17, outside of
    the sheet. *)
Theorem C2_wide_image_leaves_sheet :
  wide_input <> [] /\ Forall positive_size wide_input /\
  estimate_width wide_input 1 = Ok 8 /\
  exists atlas pos,
    pack_images wide_input 1 = Ok (atlas, pos) /\
    width atlas = 8 /\ height atlas = 8 /\
    placement wide_input pos 0 = Some (1, 2, 16, 2) /\
    ~ inside atlas (1, 2, 16, 2).
Proof.
  split; [discriminate |]. split; [repeat constructor |].
  split; [vm_compute; reflexivity |].
  do 2 eexists. split; [vm_compute; reflexivity |].
  split; [reflexivity |]. split; [reflexivity |]. split; [reflexivity |].
  simpl. lia.
Qed.

(** C9 fails on the code, on the same input: the part of the image that lies
    outside of the sheet is clipped by [paste], so the rectangle read back at
    the placement differs from the buffer of the image. *)
Theorem C9_wide_image_is_clipped :
  Forall wf_image wide_input /\ Forall positive_size wide_input /\
  exists atlas pos,
    pack_images wide_input 1 = Ok (atlas, pos) /\
    placement wide_input pos 0 = Some (1, 2, 16, 2) /\
    pixels (crop atlas 1 2 16 2) =
      replicate 7 opaque_red ++ replicate 9 transparent ++
      replicate 7 opaque_red ++ replicate 9 transparent /\
    pixels (crop atlas 1 2 16 2) <> pixels (solid 16 2).
Proof.
  split.
  { constructor; [| constructor]. repeat split; vm_compute; congruence. }
  split; [repeat constructor |].
  do 2 eexists. split; [vm_compute; reflexivity |].
  split; [reflexivity |]. split; [vm_compute; reflexivity |].
  vm_compute. discriminate.
Qed.


(** * Further properties of [pack_images] *)

(** ** The edges of the sheet *)

Lemma sizes_in_order_nonneg_images images order :
  Forall nonneg_image images ->
  Forall nonneg_size (sizes_in_order images order).
Proof.
  intros Himg. unfold sizes_in_order. apply Forall_fmap, Forall_forall.
  intros i _. simpl.
  destruct (images !! i) as [img|] eqn:Hi.
  - rewrite (list_lookup_total_correct _ _ _ Hi).
    rewrite Forall_forall in Himg. apply Himg. by eapply list_elem_of_lookup_2.
  - rewrite list_lookup_total_alt, Hi. simpl. by split.
Qed.

(** The cursor of the loop at its end, as the recurrence computes it. *)
Lemma shelf_pack_cursor images padding W :
  cursor_of (shelf_pack images padding W) =
  cursor_end W padding padding padding 0
    (sizes_in_order images (sorted_indices images)).
Proof. apply (fold_place_cursor images padding W _ (shelf_init images padding)). Qed.

(** The left, top and bottom edges: what the loop guarantees for every
    placement, whatever the estimated width is. *)
Lemma placement_edges images padding W i x y w h :
  Forall nonneg_image images -> 0 <= padding ->
  placement images (positions (shelf_pack images padding W)) i = Some (x, y, w, h) ->
  padding <= x /\ padding <= y /\
  y + h + padding <=
    current_y (shelf_pack images padding W) +
    row_height (shelf_pack images padding W) + padding.
Proof.
  intros Himg Hpad Ha.
  destruct (placement_rank _ _ _ _ Ha) as [k Hk].
  destruct (placement_by_rank _ _ _ _ _ _ _ _ _ Hk Ha) as [Ho Hs].
  pose proof (sizes_in_order_nonneg_images images (sorted_indices images) Himg)
    as Hsz.
  destruct (cursor_offsets_lower W padding _ padding padding 0 k x y Hpad
              ltac:(lia) ltac:(lia) ltac:(lia) Hsz Ho) as [Hx Hy].
  pose proof (cursor_end_covers W padding Hpad _ padding padding 0 k x y w h
                ltac:(lia) Hsz Ho Hs) as Hend.
  rewrite <- shelf_pack_cursor in Hend. unfold cursor_of in Hend. lia.
Qed.

Lemma final_size_covers padding W st :
  1 <= W ->
  W <= final_size padding W st /\
  current_y st + row_height st + padding <= final_size padding W st.
Proof.
  intros HW. unfold final_size.
  destruct (round_pow2_smallest
              (Z.max W (current_y st + row_height st + padding)))
    as (_ & Hge & _); lia.
Qed.

(** The same on the result of [pack_images]. *)
Lemma placement_keeps_edges images padding atlas pos i x y w h :
  Forall nonneg_image images -> 0 <= padding ->
  pack_images images padding = Ok (atlas, pos) ->
  placement images pos i = Some (x, y, w, h) ->
  padding <= x /\ padding <= y /\ y + h + padding <= height atlas.
Proof.
  intros Himg Hpad Hp Ha.
  assert (Hne : images <> []) by (intros ->; done).
  destruct (pack_images_inv _ _ _ _ Hne Hp) as (W & HW & Hpos & _).
  destruct (pack_images_sheet_size _ _ _ _ _ Hne Hp HW) as [_ Hh].
  subst pos.
  destruct (placement_edges _ _ _ _ _ _ _ _ Himg Hpad Ha) as (Hx & Hy & Hb).
  destruct (estimate_width_pos _ _ _ HW) as [_ HW1].
  destruct (final_size_covers padding W (shelf_pack images padding W) HW1)
    as [_ Hcov].
  rewrite Hh. lia.
Qed.

(** X1. For images whose sizes are not negative and a padding that is not
    negative, every placement that [pack_images] returns keeps the padding to
    the left, top and bottom edges of the sheet: [padding <= x],
    [padding <= y] and [y + height + padding <= sheet.height].  Only the right
    edge can be crossed. *)
Theorem X1_left_top_bottom_edges images padding atlas pos i x y w h :
  Forall nonneg_image images -> 0 <= padding ->
  pack_images images padding = Ok (atlas, pos) ->
  placement images pos i = Some (x, y, w, h) ->
  padding <= x /\ padding <= y /\ y + h + padding <= height atlas.
Proof. apply placement_keeps_edges. Qed.

Lemma X1_witness :
  exists atlas pos,
    pack_images wide_input 1 = Ok (atlas, pos) /\
    1 <= 1 /\ 1 <= 2 /\ 2 + 2 + 1 <= height atlas.
Proof.
  do 2 eexists. split; [vm_compute; reflexivity |].
  eapply (X1_left_top_bottom_edges wide_input 1 _ _ 0%nat 1 2 16 2).
  - repeat constructor; vm_compute; discriminate.
  - lia.
  - vm_compute; reflexivity.
  - vm_compute; reflexivity.
Defined.

(** An image that fits the width with the padding on its left ends before
    the right border of the estimate. *)
Lemma cursor_offsets_right W padding sizes : forall cx cy rh k x y w h,
  0 <= padding ->
  Forall (fun s => s.1 + padding <= W) sizes ->
  cursor_offsets W padding cx cy rh sizes !! k = Some (x, y) ->
  sizes !! k = Some (w, h) ->
  x + w <= W.
Proof.
  induction sizes as [|[w0 h0] sizes IH]; intros cx cy rh k x y w h Hpad Hs Hk Hsk;
    [done |].
  apply Forall_cons in Hs as [Hw Hs]. simpl in Hw.
  cbn [cursor_offsets] in Hk.
  destruct k as [|k]; simpl in Hsk.
  - injection Hsk as -> ->.
    destruct (Z.gtb_spec (cx + w + padding) W); simpl in Hk;
      injection Hk as <- <-; lia.
  - destruct (cx + w0 + padding >? W); simpl in Hk;
      by eapply (IH _ _ _ k).
Qed.

(** Containment, for an estimated width that every image fits with the
    padding on its left. *)
Lemma inside_when_fits images padding atlas pos W i a :
  Forall nonneg_image images -> 0 <= padding ->
  pack_images images padding = Ok (atlas, pos) ->
  estimate_width images padding = Ok W ->
  Forall (fun img => width img + padding <= W) images ->
  placement images pos i = Some a ->
  inside atlas a.
Proof.
  intros Himg Hpad Hp HW Hfit Ha.
  assert (Hne : images <> []) by (intros ->; done).
  destruct a as [[[x y] w] h].
  destruct (placement_keeps_edges _ _ _ _ _ _ _ _ _ Himg Hpad Hp Ha)
    as (_ & _ & Hb).
  destruct (pack_images_sheet_size _ _ _ _ _ Hne Hp HW) as [Hw _].
  destruct (pack_images_inv _ _ _ _ Hne Hp) as (W' & HW' & -> & _).
  rewrite HW in HW'. injection HW' as <-.
  destruct (placement_rank _ _ _ _ Ha) as [k Hk].
  destruct (placement_by_rank _ _ _ _ _ _ _ _ _ Hk Ha) as [Ho Hs].
  assert (Hx : x + w <= W).
  { eapply (cursor_offsets_right W padding _ _ _ _ k); [done | | exact Ho | exact Hs].
    unfold sizes_in_order. apply Forall_fmap, Forall_forall. intros n Hn. simpl.
    apply sorted_indices_lt, lookup_lt_is_Some in Hn as [img Hn].
    rewrite (list_lookup_total_correct _ _ _ Hn).
    rewrite Forall_forall in Hfit. apply Hfit. by eapply list_elem_of_lookup_2. }
  destruct (estimate_width_pos _ _ _ HW) as [_ HW1].
  destruct (final_size_covers padding W (shelf_pack images padding W) HW1)
    as [Hcov _].
  unfold inside. rewrite Hw. lia.
Qed.

(** X2. If every image, with the padding on its left, is not wider than the
    estimated width ([width + padding <= W]), every placement that
    [pack_images] returns lies inside the sheet. *)
Theorem X2_containment_when_fits images padding atlas pos W i a :
  Forall nonneg_image images -> 0 <= padding ->
  pack_images images padding = Ok (atlas, pos) ->
  estimate_width images padding = Ok W ->
  Forall (fun img => width img + padding <= W) images ->
  placement images pos i = Some a ->
  inside atlas a.
Proof. apply inside_when_fits. Qed.

Lemma X2_witness :
  exists atlas pos a,
    pack_images small_input 1 = Ok (atlas, pos) /\
    placement small_input pos 1 = Some a /\ inside atlas a.
Proof.
  do 3 eexists. split; [vm_compute; reflexivity |].
  split; [vm_compute; reflexivity |].
  eapply (X2_containment_when_fits small_input 1 _ _ 8 1%nat).
  - repeat constructor; vm_compute; discriminate.
  - lia.
  - vm_compute; reflexivity.
  - vm_compute; reflexivity.
  - repeat constructor; vm_compute; discriminate.
  - vm_compute; reflexivity.
Defined.

(** The estimate is not below the padded width of an image that is at least
    as tall as wide, as long as the square root is exact. *)
Lemma tall_images_fit images padding :
  Forall tall_image images -> 0 <= padding ->
  total_area images padding <= 2 ^ 52 ->
  Forall (fun img => width img + padding <=
                     round_pow2 (Z.sqrt_up (total_area images padding))) images.
Proof.
  intros Htall Hpad Hmax.
  assert (Hnn : Forall nonneg_image images).
  { eapply Forall_impl; [exact Htall |]. intros img [? ?]. split; lia. }
  assert (Harea : Forall (fun img => (width img + padding) * (width img + padding)
                                     <= total_area images padding) images).
  { clear Hmax. unfold total_area.
    induction Htall as [|img images [Hw Hh] Htall IH]; [constructor |].
    apply Forall_cons in Hnn as [_ Hnn].
    pose proof (total_area_nonneg images padding Hnn Hpad) as H0.
    unfold total_area in H0. simpl. constructor; [nia |].
    eapply Forall_impl; [exact (IH Hnn) |]. intros img' Himg'. simpl in *. nia. }
  eapply Forall_impl; [exact Harea |]. intros img Himg. simpl in Himg.
  rewrite Forall_forall in Htall.
  set (n := total_area images padding) in *.
  set (a := width img + padding) in *.
  destruct (Z.le_gt_cases a 0) as [Ha | Ha].
  { pose proof (round_pow2_pos (Z.sqrt_up n)). lia. }
  assert (Hn : 1 <= n) by nia.
  destruct (sqrt_up_bounds n Hn) as (Hk & _ & Hhi).
  destruct (round_pow2_smallest (Z.sqrt_up n) Hk) as (_ & Hge & _).
  assert (a <= Z.sqrt_up n); [| lia].
  apply Z.square_le_simpl_nonneg; lia.
Qed.

(** X3. For images that are at least as tall as wide (square icons among
    them), a padding that is not negative and a total padded area of at most
    [2 ^ 52], every placement that [pack_images] returns lies inside the
    sheet. *)
Theorem X3_tall_images_inside images padding atlas pos i a :
  Forall tall_image images -> 0 <= padding ->
  total_area images padding <= 2 ^ 52 ->
  pack_images images padding = Ok (atlas, pos) ->
  placement images pos i = Some a ->
  inside atlas a.
Proof.
  intros Htall Hpad Hmax Hp Ha.
  assert (Hnn : Forall nonneg_image images).
  { eapply Forall_impl; [exact Htall |]. intros img [? ?]. split; lia. }
  pose proof (total_area_nonneg images padding Hnn Hpad) as Hmin.
  apply (inside_when_fits images padding atlas pos
           (round_pow2 (Z.sqrt_up (total_area images padding))) i a Hnn Hpad Hp);
    [apply estimate_width_exact; lia | by apply tall_images_fit | done].
Qed.

Lemma X3_witness :
  exists atlas pos a,
    pack_images square_icons 1 = Ok (atlas, pos) /\
    placement square_icons pos 2 = Some a /\ inside atlas a.
Proof.
  do 3 eexists. split; [vm_compute; reflexivity |].
  split; [vm_compute; reflexivity |].
  eapply (X3_tall_images_inside square_icons 1 _ _ 2%nat).
  - repeat constructor; vm_compute; discriminate.
  - lia.
  - vm_compute. discriminate.
  - vm_compute; reflexivity.
  - vm_compute; reflexivity.
Defined.

(** ** Texels of the sheet *)

Lemma positive_nonneg_images images :
  Forall positive_size images -> Forall nonneg_image images.
Proof.
  intros H. eapply Forall_impl; [exact H |]. intros img [? ?]. split; lia.
Qed.

(** Pixel fidelity for every image, when every image fits the estimated
    width. *)
Lemma roundtrip_when_fits images padding atlas pos W i img :
  Forall wf_image images -> Forall positive_size images -> 0 <= padding ->
  pack_images images padding = Ok (atlas, pos) ->
  estimate_width images padding = Ok W ->
  Forall (fun img => width img + padding <= W) images ->
  images !! i = Some img ->
  exists x y,
    placement images pos i = Some (x, y, width img, height img) /\
    pixels (crop atlas x y (width img) (height img)) = pixels img.
Proof.
  intros Hwf Hpos Hpad Hp HW Hfit Hi.
  assert (Hne : images <> []) by (intros ->; done).
  destruct (pack_images_inv _ _ _ _ Hne Hp) as (W' & HW' & Hpos' & _).
  rewrite HW in HW'. injection HW' as <-.
  destruct (shelf_pack_placed images padding W i) as (x & y & Hxy);
    [by eapply lookup_lt_Some |].
  assert (Ha : placement images pos i = Some (x, y, width img, height img))
    by (unfold placement; by rewrite Hi, Hpos', Hxy).
  exists x, y. split; [exact Ha |].
  apply (roundtrip_when_inside images padding atlas pos i img x y
           Hwf Hpos Hpad Hp Hi Ha).
  apply (inside_when_fits images padding atlas pos W i _
           (positive_nonneg_images _ Hpos) Hpad Hp HW Hfit Ha).
Qed.

(** X4. For well-formed images of positive size that all fit the estimated
    width ([width + padding <= W]) and a padding that is not negative, the
    rectangle read back from the sheet at the placement of an image is the
    buffer of this image, texel for texel. *)
Theorem X4_pixel_fidelity_when_fits images padding atlas pos W i img :
  Forall wf_image images -> Forall positive_size images -> 0 <= padding ->
  pack_images images padding = Ok (atlas, pos) ->
  estimate_width images padding = Ok W ->
  Forall (fun img => width img + padding <= W) images ->
  images !! i = Some img ->
  exists x y,
    placement images pos i = Some (x, y, width img, height img) /\
    pixels (crop atlas x y (width img) (height img)) = pixels img.
Proof. apply roundtrip_when_fits. Qed.

Lemma X4_witness :
  exists atlas pos,
    pack_images small_input 1 = Ok (atlas, pos) /\
    exists x y,
      placement small_input pos 1 = Some (x, y, width (solid 3 2), height (solid 3 2)) /\
      pixels (crop atlas x y (width (solid 3 2)) (height (solid 3 2))) =
      pixels (solid 3 2).
Proof.
  do 2 eexists. split; [vm_compute; reflexivity |].
  eapply (X4_pixel_fidelity_when_fits small_input 1 _ _ 8 1%nat (solid 3 2)).
  - repeat constructor; vm_compute; congruence.
  - repeat constructor.
  - lia.
  - vm_compute; reflexivity.
  - vm_compute; reflexivity.
  - repeat constructor; vm_compute; discriminate.
  - reflexivity.
Defined.

Lemma getpixel_Image_new w h c u v :
  0 <= u < w -> 0 <= v < h -> getpixel (Image_new w h c) u v = Some c.
Proof.
  intros Hu Hv. unfold getpixel, Image_new. cbn [width height pixels].
  replace ((0 <=? u) && (u <? w) && (0 <=? v) && (v <? h)) with true
    by (symmetry; rewrite !andb_true_iff; lia).
  apply lookup_replicate_2. nia.
Qed.

(** A texel of the sheet that lies in no rectangle is transparent. *)
Lemma background_transparent images padding atlas pos u v :
  pack_images images padding = Ok (atlas, pos) ->
  0 <= u < width atlas -> 0 <= v < height atlas ->
  (forall i x y w h, placement images pos i = Some (x, y, w, h) ->
     in_rect x y w h u v = false) ->
  getpixel atlas u v = Some transparent.
Proof.
  intros Hp Hu Hv Hout.
  destruct images as [|img0 images].
  - injection Hp as <- <-. apply getpixel_Image_new; simpl in *; lia.
  - destruct (pack_images_inv (img0 :: images) padding atlas pos
                ltac:(done) Hp) as (W & HW & Hpos & Hc).
    destruct (compose_size _ _ _ _ Hc) as [Hcw Hch].
    rewrite (compose_getpixel_other _ _ _ _ u v Hc).
    + unfold blank_sheet in *. cbn [Image_new width height] in Hcw, Hch.
      apply getpixel_Image_new; lia.
    + intros j img x y Hj Hpj. apply (Hout j).
      unfold placement. by rewrite Hj, Hpj.
Qed.

(** X5. A texel of the sheet that [pack_images] returns which lies in the
    rectangle of no placement is transparent: the background of the sheet is
    never written. *)
Theorem X5_background_is_transparent images padding atlas pos u v :
  pack_images images padding = Ok (atlas, pos) ->
  0 <= u < width atlas -> 0 <= v < height atlas ->
  (forall i x y w h, placement images pos i = Some (x, y, w, h) ->
     in_rect x y w h u v = false) ->
  getpixel atlas u v = Some transparent.
Proof. apply background_transparent. Qed.

Lemma X5_witness :
  exists atlas pos,
    pack_images small_input 1 = Ok (atlas, pos) /\
    getpixel atlas 0 0 = Some transparent.
Proof.
  do 2 eexists. split; [vm_compute; reflexivity |].
  eapply (X5_background_is_transparent small_input 1 _ _ 0 0).
  - vm_compute; reflexivity.
  - vm_compute. split; [discriminate | reflexivity].
  - vm_compute. split; [discriminate | reflexivity].
  - intros [|[|[|i]]] x y w h Ha; vm_compute in Ha; try discriminate;
      injection Ha as <- <- <- <-; reflexivity.
Defined.

(** ** What [pack_images] raises *)

(** The second shift of the rounding, for a mantissa of 53 bits with or
    without a carry. *)
Lemma shr_fexp_carry m e :
  2 ^ 52 <= m <= 2 ^ 53 -> -1074 <= e ->
  exists m' e',
    shr_fexp dbl_prec dbl_emax m e loc_Exact =
      (Build_shr_record (Zpos m') false false, e') /\
    2 ^ 52 <= Zpos m' < 2 ^ 53 /\ e <= e' <= e + 1.
Proof.
  intros Hm He.
  destruct (Z.eq_dec m (2 ^ 53)) as [-> | Hne].
  - exists (Z.to_pos (2 ^ 52)), (e + 1). unfold shr_fexp.
    replace (fexp dbl_prec dbl_emax (Zdigits2 (2 ^ 53) + e) - e) with 1
      by (change (Zdigits2 (2 ^ 53)) with 54;
          unfold fexp, emin, dbl_prec, dbl_emax; lia).
    split; [reflexivity |]. split; [simpl; lia | lia].
  - exists (Z.to_pos m), e.
    rewrite shr_fexp_53 by (try apply Zdigits2_53; lia).
    destruct m as [|p|p]; try lia.
    split; [reflexivity |]. simpl Z.to_pos. lia.
Qed.

(** The conversion of a positive integer of any size, for either sign: a
    normal double, or an infinity beyond the largest exponent. *)
Lemma binary_round_int sx p :
  exists m e,
    2 ^ 52 <= Zpos m < 2 ^ 53 /\
    Z.log2 (Zpos p) - 52 <= e <= Z.log2 (Zpos p) - 51 /\
    binary_round dbl_prec dbl_emax sx p 0 =
    if e <=? 971 then S754_finite sx m e else S754_infinity sx.
Proof.
  pose proof (Z.log2_spec (Zpos p) ltac:(lia)) as [Hlo Hhi].
  pose proof (Z.log2_nonneg (Zpos p)) as HL0.
  set (L := Z.log2 (Zpos p)) in *.
  unfold binary_round.
  change (Z.pos (digits2_pos p)) with (Zdigits2 (Zpos p)).
  rewrite Zdigits2_log2 by lia. fold L.
  replace (fexp dbl_prec dbl_emax (L + 1 + 0)) with (L - 52)
    by (unfold fexp, emin, dbl_prec, dbl_emax; lia).
  destruct (Z.lt_ge_cases L 53) as [Hsmall | Hbig].
  - assert (Hp53 : Zpos p < 2 ^ 53).
    { eapply Z.lt_le_trans; [exact Hhi |]. apply Z.pow_le_mono_r; lia. }
    pose proof (mant53_bounds (Zpos p) ltac:(lia)) as HM.
    assert (HMd : mant53 (Zpos p) = Zpos p * 2 ^ (52 - L)) by reflexivity.
    set (M := mant53 (Zpos p)) in *.
    exists (Z.to_pos M), (L - 52).
    split; [rewrite Z2Pos.id by lia; done |]. split; [lia |].
    assert (Hal : shl_align p 0 (L - 52) = (Z.to_pos M, L - 52)).
    { unfold shl_align. destruct (L - 52 - 0) as [|s|s] eqn:Hs; try lia.
      - f_equal; [| lia]. apply Pos2Z.inj. rewrite Z2Pos.id, HMd by lia.
        replace (52 - L) with 0 by lia. lia.
      - f_equal. apply Pos2Z.inj. rewrite Pos_iter_xO, Z2Pos.id, HMd by lia.
        f_equal. f_equal. lia. }
    rewrite Hal, Z2Pos.id by lia.
    unfold binary_round_aux.
    rewrite shr_fexp_53 by (try apply Zdigits2_53; lia).
    cbn [shr_record_of_loc shr_m loc_of_shr_record round_nearest_even].
    rewrite shr_fexp_53 by (try apply Zdigits2_53; lia).
    cbn [shr_record_of_loc shr_m].
    destruct M as [|q|q]; try lia. reflexivity.
  - assert (Hal : shl_align p 0 (L - 52) = (p, 0)).
    { unfold shl_align. destruct (L - 52 - 0) as [|s|s] eqn:Hs; try lia; done. }
    rewrite Hal. unfold binary_round_aux.
    unfold shr_fexp at 1. rewrite Zdigits2_log2 by lia. fold L.
    replace (fexp dbl_prec dbl_emax (L + 1 + 0) - 0) with (L - 52)
      by (unfold fexp, emin, dbl_prec, dbl_emax; lia).
    destruct (L - 52) as [|s|s] eqn:Hs; try lia.
    cbn [shr shr_record_of_loc].
    set (mrs := SpecFloat.iter_pos shr_1 s _).
    assert (Hm1 : shr_m mrs = Zpos p / 2 ^ Zpos s)
      by (unfold mrs; rewrite iter_pos_shr_1_m; simpl; [done | lia]).
    assert (Hm1b : 2 ^ 52 <= shr_m mrs < 2 ^ 53).
    { rewrite Hm1.
      assert (Hps : 0 < 2 ^ Zpos s) by (apply Z.pow_pos_nonneg; lia).
      split.
      - apply Z.div_le_lower_bound; [lia |].
        rewrite Z.mul_comm, <- Z.pow_add_r by lia.
        replace (52 + Zpos s) with L by lia. done.
      - apply Z.div_lt_upper_bound; [lia |].
        rewrite <- Z.pow_add_r by lia.
        replace (Zpos s + 53) with (Z.succ L) by lia. done. }
    pose proof (round_nearest_even_range (shr_m mrs) (loc_of_shr_record mrs)) as Hr.
    destruct (shr_fexp_carry
                (round_nearest_even (shr_m mrs) (loc_of_shr_record mrs))
                (0 + Zpos s)) as (m' & e' & Heq & Hm' & He'); [lia | lia |].
    exists m', e'. split; [done |]. split; [lia |].
    rewrite Heq. reflexivity.
Qed.

(** The square root of a negative integer: [ValueError], unless the integer
    is too large to be converted at all. *)
Lemma math_sqrt_negative n : n < 0 ->
  math_sqrt n = Raise ValueError \/
  (math_sqrt n = Raise OverflowError /\ n <= - 2 ^ 1023).
Proof.
  intros Hn. destruct n as [|p|p]; try lia.
  destruct (binary_round_int true p) as (m & e & Hm & He & Hr).
  unfold math_sqrt, float_of_int, binary_normalize. rewrite Hr.
  destruct (Z.leb_spec e 971) as [Hle | Hgt].
  - left. reflexivity.
  - right. split; [reflexivity |].
    assert (HL : 1023 <= Z.log2 (Zpos p)) by lia.
    apply Z.log2_le_pow2 in HL; lia.
Qed.

(** The ceiling of the square root of an integer that is not negative:
    a result, or [OverflowError] from [2 ^ 1023] on. *)
Lemma ceil_sqrt_nonneg n : 0 <= n ->
  (exists c, (r ← math_sqrt n; math_ceil r) = Ok c) \/
  ((r ← math_sqrt n; math_ceil r) = Raise OverflowError /\ 2 ^ 1023 <= n).
Proof.
  intros Hn. destruct n as [|p|p]; try lia; [left; by exists 0 |].
  destruct (binary_round_int false p) as (m & e & Hm & He & Hr).
  pose proof (Z.log2_nonneg (Zpos p)) as HL0.
  unfold math_sqrt, float_of_int, binary_normalize. rewrite Hr.
  destruct (Z.leb_spec e 971) as [Hle | Hgt].
  - left. destruct (SFsqrt_finite m e Hm ltac:(lia)) as (m' & e' & Hs).
    rewrite bind_Ok, Hs, bind_Ok. simpl. by eexists.
  - right. split; [reflexivity |].
    assert (HL : 1023 <= Z.log2 (Zpos p)) by lia.
    apply Z.log2_le_pow2 in HL; lia.
Qed.

Lemma math_sqrt_overflow n : 2 ^ 1024 <= n ->
  math_sqrt n = Raise OverflowError.
Proof.
  intros Hn. destruct n as [|p|p]; try lia.
  destruct (binary_round_int false p) as (m & e & Hm & He & Hr).
  assert (HL : 1024 <= Z.log2 (Zpos p)) by (apply Z.log2_le_pow2; lia).
  unfold math_sqrt, float_of_int, binary_normalize. rewrite Hr.
  destruct (Z.leb_spec e 971) as [Hle | Hgt]; [lia | reflexivity].
Qed.

Lemma estimate_width_raise images padding e :
  estimate_width images padding = Raise e ->
  (r ← math_sqrt (total_area images padding); math_ceil r) = Raise e.
Proof.
  unfold estimate_width.
  destruct (math_sqrt (total_area images padding)) as [r|e1]; [| done].
  rewrite !bind_Ok. by destruct (math_ceil r).
Qed.

(** X6. A negative total padded area, which a negative padding can give,
    makes [pack_images] raise [ValueError] (the square root of a negative
    number), as long as the area is above [- 2 ^ 1023]. *)
Theorem X6_negative_area_raises images padding :
  images <> [] -> - 2 ^ 1023 < total_area images padding < 0 ->
  pack_images images padding = Raise ValueError.
Proof.
  intros Hne Hn. destruct images as [|img images]; [done |].
  unfold pack_images, estimate_width.
  destruct (math_sqrt_negative (total_area (img :: images) padding))
    as [-> | [_ Hbig]]; [lia | done | lia].
Qed.

Lemma X6_witness : pack_images thin_input (-4) = Raise ValueError.
Proof.
  apply (X6_negative_area_raises thin_input (-4)).
  - discriminate.
  - vm_compute. split; reflexivity.
Defined.

(** X7. The width estimate of [pack_images] (the total padded area, its
    square root, the ceiling and the rounding to a power of two) raises
    nothing but [ValueError], and this only for a negative area, or
    [OverflowError], and this only for an area of absolute value [2 ^ 1023]
    or more. *)
Theorem X7_width_estimate_errors images padding e :
  estimate_width images padding = Raise e ->
  (e = ValueError /\ total_area images padding < 0) \/
  (e = OverflowError /\ 2 ^ 1023 <= Z.abs (total_area images padding)).
Proof.
  intros HW. pose proof (estimate_width_raise _ _ _ HW) as Hc.
  destruct (Z.lt_ge_cases (total_area images padding) 0) as [Hneg | Hpos].
  - destruct (math_sqrt_negative _ Hneg) as [Hs | [Hs Hbig]];
      rewrite Hs in Hc; injection Hc as <-; [left | right]; split; try done; lia.
  - destruct (ceil_sqrt_nonneg _ Hpos) as [[c Hok] | [Hs Hbig]].
    + congruence.
    + rewrite Hs in Hc. injection Hc as <-. right. split; [done | lia].
Qed.

Lemma X7_witness :
  estimate_width thin_input (-4) = Raise ValueError /\
  ((ValueError = ValueError /\ total_area thin_input (-4) < 0) \/
   (ValueError = OverflowError /\
    2 ^ 1023 <= Z.abs (total_area thin_input (-4)))).
Proof.
  split; [vm_compute; reflexivity |].
  apply (X7_width_estimate_errors thin_input (-4) ValueError).
  vm_compute. reflexivity.
Defined.

(** X8. From a total padded area of [2 ^ 1024] on, [pack_images] raises
    [OverflowError]: the area cannot be converted to a float. *)
Theorem X8_huge_area_overflows images padding :
  images <> [] -> 2 ^ 1024 <= total_area images padding ->
  pack_images images padding = Raise OverflowError.
Proof.
  intros Hne Hn. destruct images as [|img images]; [done |].
  unfold pack_images, estimate_width.
  by rewrite (math_sqrt_overflow _ Hn).
Qed.

Lemma X8_witness : pack_images [solid 1 1] (2 ^ 512) = Raise OverflowError.
Proof.
  apply (X8_huge_area_overflows [solid 1 1] (2 ^ 512)).
  - discriminate.
  - vm_compute. discriminate.
Defined.


(** * The command: [main] *)

(** ** The rasterization loop *)

Lemma rasterize_all_spec w tool sz svgs : forall metas0 imgs0 metas imgs,
  rasterize_all w tool sz svgs metas0 imgs0 = Some (metas, imgs) ->
  metas = metas0 ++ (omap (rendered_entry w tool sz) svgs).*1 /\
  imgs = imgs0 ++ (omap (rendered_entry w tool sz) svgs).*2.
Proof.
  induction svgs as [|svg svgs IH]; intros metas0 imgs0 metas imgs Hr;
    simpl in Hr.
  - injection Hr as <- <-. simpl. by rewrite !app_nil_r.
  - cbn [omap list_omap].
    assert (He : rendered_entry w tool sz svg =
                 match rasterize w tool svg sz with
                 | Rendered img =>
                     Some (mkMeta (splitext w (basename w svg)).1
                             (basename w svg), img)
                 | _ => None
                 end) by reflexivity.
    rewrite He. clear He.
    destruct (rasterize w tool svg sz) as [img| |]; [| by apply IH | done].
    apply IH in Hr as [-> ->]. simpl. by rewrite <- !app_assoc.
Qed.

(** X9. The rasterization loop of [main] keeps [icons_data] and [images]
    aligned: they are the names and the images of the SVG files that were
    rendered, in the order of the files, the files that the rasterizer
    rejected being skipped in both; so they have the same length. *)
Theorem X9_names_and_images_aligned w tool sz svgs metas imgs :
  rasterize_all w tool sz svgs [] [] = Some (metas, imgs) ->
  metas = (omap (rendered_entry w tool sz) svgs).*1 /\
  imgs = (omap (rendered_entry w tool sz) svgs).*2 /\
  length metas = length imgs.
Proof.
  intros Hr. apply rasterize_all_spec in Hr as [-> ->]. simpl.
  split; [done |]. split; [done |]. by rewrite !length_fmap.
Qed.

Lemma X9_witness :
  exists metas imgs,
    rasterize_all demo_world "msdfgen" 3 (glob_svg demo_world "icons") [] [] =
      Some (metas, imgs) /\
    metas = [mkMeta "a" "a.svg"; mkMeta "c" "c.svg"] /\
    length metas = length imgs.
Proof.
  do 2 eexists. split; [vm_compute; reflexivity |].
  destruct (X9_names_and_images_aligned demo_world "msdfgen" 3
              (glob_svg demo_world "icons") _ _ ltac:(vm_compute; reflexivity))
    as (Hm & Hi & Hlen).
  split; [reflexivity | exact Hlen].
Defined.

Lemma rasterize_all_aligned w tool sz svgs metas imgs :
  rasterize_all w tool sz svgs [] [] = Some (metas, imgs) ->
  length metas = length imgs /\
  forall i meta img, metas !! i = Some meta -> imgs !! i = Some img ->
    exists svg, svg ∈ svgs /\ rasterize w tool svg sz = Rendered img /\
      meta = mkMeta (splitext w (basename w svg)).1 (basename w svg).
Proof.
  intros Hr. apply rasterize_all_spec in Hr as [-> ->]. simpl.
  split; [by rewrite !length_fmap |].
  intros i meta img Hm Hi.
  rewrite list_lookup_fmap in Hm. rewrite list_lookup_fmap in Hi.
  destruct (omap (rendered_entry w tool sz) svgs !! i) as [[m' i']|] eqn:Hl;
    [| done].
  simpl in Hm, Hi. injection Hm as ->. injection Hi as ->.
  apply list_elem_of_lookup_2, list_elem_of_omap in Hl as (svg & Hsvg & He).
  exists svg. split; [done |]. unfold rendered_entry in He.
  destruct (rasterize w tool svg sz); try done. by injection He as <- <-.
Qed.

(** Every rendered file is in the lists. *)
Lemma rasterize_all_complete w tool sz svgs metas imgs svg img :
  rasterize_all w tool sz svgs [] [] = Some (metas, imgs) ->
  svg ∈ svgs -> rasterize w tool svg sz = Rendered img ->
  exists i, metas !! i = Some (mkMeta (splitext w (basename w svg)).1 (basename w svg)) /\
            imgs !! i = Some img.
Proof.
  intros Hr Hsvg Hrend. apply rasterize_all_spec in Hr as [-> ->]. simpl.
  assert (Hin : (mkMeta (splitext w (basename w svg)).1 (basename w svg), img)
                ∈ omap (rendered_entry w tool sz) svgs).
  { apply list_elem_of_omap. exists svg. split; [done |].
    unfold rendered_entry. by rewrite Hrend. }
  apply list_elem_of_lookup in Hin as [i Hi]. exists i.
  by rewrite !list_lookup_fmap, Hi.
Qed.

(** ** The metadata loop *)

Lemma fill_icons_ok pos images : forall metas i icons,
  (forall k, (k < length metas)%nat ->
     is_Some (images !! (i + k)%nat) /\
     exists x y, pos !! (i + k)%nat = Some (Some (x, y))) ->
  exists icons', fill_icons pos images metas i icons = Ok icons'.
Proof.
  induction metas as [|meta metas IH]; intros i icons Hall; simpl.
  - by eexists.
  - destruct (Hall 0%nat ltac:(simpl; lia)) as ([img Hi] & x & y & Hp).
    rewrite Nat.add_0_r in Hi, Hp. rewrite Hp, Hi.
    apply IH. intros k Hk.
    replace (S i + k)%nat with (i + S k)%nat by lia.
    apply Hall. simpl. lia.
Qed.

(** An entry of the result is an old entry or the placement of an image
    whose name it carries. *)
Lemma fill_icons_sound pos images : forall metas i icons icons' name rect,
  fill_icons pos images metas i icons = Ok icons' ->
  icons' !! name = Some rect ->
  icons !! name = Some rect \/
  exists k meta, metas !! k = Some meta /\ meta_name meta = name /\
    placement images pos (i + k) = Some rect.
Proof.
  induction metas as [|meta metas IH]; intros i icons icons' name rect Hf Hl;
    simpl in Hf.
  - injection Hf as <-. by left.
  - destruct (pos !! i) as [[[x y]|]|] eqn:Hp; try done.
    destruct (images !! i) as [img|] eqn:Hi; try done.
    destruct (IH _ _ _ _ _ Hf Hl) as [Hold | (k & m & Hk & Hn & Hpl)].
    + destruct (decide (meta_name meta = name)) as [Heq | Hne].
      * right. exists 0%nat, meta. split; [done |]. split; [done |].
        rewrite Heq, lookup_insert_eq in Hold. injection Hold as <-.
        unfold placement. by rewrite Nat.add_0_r, Hi, Hp.
      * left. by rewrite lookup_insert_ne in Hold.
    + right. exists (S k), m. split; [done |]. split; [done |].
      by replace (i + S k)%nat with (S i + k)%nat by lia.
Qed.

(** Every name gets an entry, and entries are never removed. *)
Lemma fill_icons_keys pos images : forall metas i icons icons' name,
  fill_icons pos images metas i icons = Ok icons' ->
  is_Some (icons !! name) \/ name ∈ meta_name <$> metas ->
  is_Some (icons' !! name).
Proof.
  induction metas as [|meta metas IH]; intros i icons icons' name Hf Hin;
    simpl in Hf.
  - injection Hf as <-. destruct Hin as [? | Hin]; [done |]. by inversion Hin.
  - destruct (pos !! i) as [[[x y]|]|] eqn:Hp; try done.
    destruct (images !! i) as [img|] eqn:Hi; try done.
    apply (IH _ _ _ _ Hf).
    destruct (decide (meta_name meta = name)) as [Heq | Hne].
    + left. rewrite Heq, lookup_insert_eq. by eexists.
    + destruct Hin as [Hold | Hin].
      * left. by rewrite lookup_insert_ne.
      * right. rewrite fmap_cons in Hin.
        apply elem_of_cons in Hin as [-> | Hin]; done.
Qed.

(** ** Runs of [main] *)

(** A saved atlas comes from the images that were rendered. *)
Lemma main_saved_atlas w args atlas :
  saved_atlas (main w args) = Some atlas ->
  exists tool metas imgs pos,
    rasterize_all w tool (icon_size args) (glob_svg w (input_dir args)) [] [] =
      Some (metas, imgs) /\
    pack_images imgs (padding_arg args) = Ok (atlas, pos).
Proof.
  unfold main. intros Hs.
  repeat case_match; simpl in Hs; try done; injection Hs as <-; eauto 10.
Qed.

(** The metadata loop finds a position and an image for every name. *)
Lemma metadata_loop_ok w tool sz svgs metas imgs padding atlas pos :
  rasterize_all w tool sz svgs [] [] = Some (metas, imgs) ->
  pack_images imgs padding = Ok (atlas, pos) ->
  exists icons, fill_icons pos imgs metas 0 ∅ = Ok icons.
Proof.
  intros Hr Hp.
  destruct (rasterize_all_aligned _ _ _ _ _ _ Hr) as [Hlen _].
  apply fill_icons_ok. intros k Hk. simpl.
  assert (Hne : imgs <> []) by (intros ->; simpl in *; lia).
  destruct (pack_images_inv _ _ _ _ Hne Hp) as (W & _ & -> & _).
  split; [apply lookup_lt_is_Some; lia |].
  apply shelf_pack_placed. lia.
Qed.

(** The metadata that [main] writes: it is built from the result of
    [pack_images] on the rendered images, after the atlas has been saved. *)
Lemma main_json_inv w args json :
  saved_json (main w args) = Some json ->
  exists tool metas imgs pos atlas,
    rasterize_all w tool (icon_size args) (glob_svg w (input_dir args)) [] [] =
      Some (metas, imgs) /\
    pack_images imgs (padding_arg args) = Ok (atlas, pos) /\
    fill_icons pos imgs metas 0 ∅ = Ok (json_icons json) /\
    saved_atlas (main w args) = Some atlas /\
    imgs <> [] /\
    json_atlas_width json = width atlas /\
    json_atlas_height json = height atlas.
Proof.
  unfold main. intros Hs.
  repeat case_match; simpl in Hs; try done; injection Hs as <-; simpl;
    (do 5 eexists; split; [eassumption |]; split; [eassumption |];
     split; [eassumption |]; done).
Qed.

(** The sheet of a non-empty input is a square whose side is a power of
    two. *)
Lemma pack_images_square images padding atlas pos :
  pack_images images padding = Ok (atlas, pos) ->
  width atlas = height atlas /\ is_pow2 (width atlas).
Proof.
  intros Hp. destruct images as [|img images].
  - injection Hp as <- _. split; [done |]. exists 0. split; [lia | reflexivity].
  - destruct (pack_images_inv (img :: images) padding atlas pos
                ltac:(done) Hp) as (W & HW & _ & _).
    destruct (pack_images_sheet_size (img :: images) padding atlas pos W
                ltac:(done) Hp HW) as [Hw Hh].
    split; [congruence |]. rewrite Hw. apply round_pow2_is_pow2.
Qed.

(** X10. The metadata is never written without the atlas: if [main] writes
    the metadata, it has saved the atlas before, and [atlas_width] and
    [atlas_height] of the metadata are the width and the height of the saved
    atlas, which are equal and a power of two. *)
Theorem X10_metadata_names_saved_atlas w args json :
  saved_json (main w args) = Some json ->
  exists atlas,
    saved_atlas (main w args) = Some atlas /\
    json_atlas_width json = width atlas /\
    json_atlas_height json = height atlas /\
    json_atlas_width json = json_atlas_height json /\
    is_pow2 (json_atlas_width json).
Proof.
  intros Hj.
  destruct (main_json_inv _ _ _ Hj)
    as (tool & metas & imgs & pos & atlas & _ & Hp & _ & Ha & _ & Hw & Hh).
  destruct (pack_images_square _ _ _ _ Hp) as [Hsq Hpow].
  exists atlas. rewrite Hw, Hh. done.
Qed.

Lemma X10_witness :
  exists json,
    saved_json (main demo_world demo_args) = Some json /\
    exists atlas,
      saved_atlas (main demo_world demo_args) = Some atlas /\
      json_atlas_width json = width atlas /\
      json_atlas_height json = height atlas /\
      json_atlas_width json = json_atlas_height json /\
      is_pow2 (json_atlas_width json).
Proof.
  eexists. split; [vm_compute; reflexivity |].
  apply (X10_metadata_names_saved_atlas demo_world demo_args).
  vm_compute; reflexivity.
Defined.

(** X11. The metadata loop of [main] never raises: for the names and the
    images that the rasterization loop has collected and the positions that
    [pack_images] has returned for these images, [pos_map[i]] and
    [images[i]] exist for every name, no position is [None], and the keys of
    [icons] are exactly the names. *)
Theorem X11_metadata_loop_never_raises
    w tool sz svgs metas imgs padding atlas pos :
  rasterize_all w tool sz svgs [] [] = Some (metas, imgs) ->
  pack_images imgs padding = Ok (atlas, pos) ->
  exists icons,
    fill_icons pos imgs metas 0 ∅ = Ok icons /\
    forall name, is_Some (icons !! name) <-> name ∈ meta_name <$> metas.
Proof.
  intros Hr Hp.
  destruct (metadata_loop_ok _ _ _ _ _ _ _ _ _ Hr Hp) as [icons Hf].
  exists icons. split; [done |]. intros name. split.
  - intros [rect Hl].
    destruct (fill_icons_sound _ _ _ _ _ _ _ _ Hf Hl)
      as [Hold | (k & meta & Hk & Hn & _)];
      [by rewrite lookup_empty in Hold |].
    apply list_elem_of_fmap. exists meta. split; [done |].
    by eapply list_elem_of_lookup_2.
  - intros Hin. apply (fill_icons_keys _ _ _ _ _ _ _ Hf). by right.
Qed.

Lemma X11_witness :
  exists atlas pos,
    pack_images [solid 3 3; solid 3 3] 1 = Ok (atlas, pos) /\
    exists icons,
      fill_icons pos [solid 3 3; solid 3 3]
        [mkMeta "a" "a.svg"; mkMeta "c" "c.svg"] 0 ∅ = Ok icons /\
      forall name,
        is_Some (icons !! name) <->
        name ∈ meta_name <$> [mkMeta "a" "a.svg"; mkMeta "c" "c.svg"].
Proof.
  do 2 eexists. split; [vm_compute; reflexivity |].
  eapply (X11_metadata_loop_never_raises demo_world "build/msdfgen" 3
            ["icons/a.svg"; "icons/b.svg"; "icons/c.svg"]
            [mkMeta "a" "a.svg"; mkMeta "c" "c.svg"]
            [solid 3 3; solid 3 3] 1).
  - vm_compute; reflexivity.
  - vm_compute; reflexivity.
Defined.

(** ** The metadata of a successful run *)

Lemma main_json w args json :
  saved_json (main w args) = Some json ->
  exists tool metas imgs pos atlas,
    rasterize_all w tool (icon_size args) (glob_svg w (input_dir args)) [] [] =
      Some (metas, imgs) /\
    pack_images imgs (padding_arg args) = Ok (atlas, pos) /\
    fill_icons pos imgs metas 0 ∅ = Ok (json_icons json) /\
    saved_atlas (main w args) = Some atlas.
Proof.
  intros Hj.
  destruct (main_json_inv _ _ _ Hj)
    as (tool & metas & imgs & pos & atlas & Hr & Hp & Hf & Ha & _).
  by exists tool, metas, imgs, pos, atlas.
Qed.

(** An entry of the metadata is the placement of a rendered image. *)
Lemma metadata_entry w tool sz svgs metas imgs pos icons name rect :
  rasterize_all w tool sz svgs [] [] = Some (metas, imgs) ->
  fill_icons pos imgs metas 0 ∅ = Ok icons ->
  icons !! name = Some rect ->
  exists k svg img,
    placement imgs pos k = Some rect /\ imgs !! k = Some img /\
    metas !! k = Some (mkMeta name (basename w svg)) /\
    svg ∈ svgs /\ rasterize w tool svg sz = Rendered img /\
    (splitext w (basename w svg)).1 = name.
Proof.
  intros Hr Hf Hl.
  destruct (fill_icons_sound _ _ _ _ _ _ _ _ Hf Hl)
    as [Hold | (k & meta & Hk & Hn & Hpl)]; [by rewrite lookup_empty in Hold |].
  simpl in Hpl.
  destruct (imgs !! k) as [img|] eqn:Hi;
    [| by unfold placement in Hpl; rewrite Hi in Hpl].
  destruct (rasterize_all_aligned _ _ _ _ _ _ Hr) as [_ Hal].
  destruct (Hal k meta img Hk Hi) as (svg & Hsvg & Hrend & ->).
  simpl in Hn. subst name. by exists k, svg, img.
Qed.

(** X12. In the metadata that [main] writes, the keys of [icons] are the
    names of the SVG files that were rendered, and the entry of a name holds
    the width and the height of an image rendered from a file of this name
    (its own image, when the names are all different). *)
Theorem X12_metadata_entries w args json :
  saved_json (main w args) = Some json ->
  exists tool,
    (forall svg img,
       svg ∈ glob_svg w (input_dir args) ->
       rasterize w tool svg (icon_size args) = Rendered img ->
       is_Some (json_icons json !! (splitext w (basename w svg)).1)) /\
    (forall name x y wd ht,
       json_icons json !! name = Some (x, y, wd, ht) ->
       exists svg img,
         svg ∈ glob_svg w (input_dir args) /\
         rasterize w tool svg (icon_size args) = Rendered img /\
         (splitext w (basename w svg)).1 = name /\
         wd = width img /\ ht = height img).
Proof.
  intros Hj.
  destruct (main_json _ _ _ Hj) as (tool & metas & imgs & pos & atlas & Hr & Hp & Hf & _).
  exists tool. split.
  - intros svg img Hsvg Hrend.
    destruct (rasterize_all_complete _ _ _ _ _ _ _ _ Hr Hsvg Hrend) as (i & Hm & _).
    apply (fill_icons_keys _ _ _ _ _ _ _ Hf). right.
    apply list_elem_of_fmap. eexists. split; [| by eapply list_elem_of_lookup_2].
    reflexivity.
  - intros name x y wd ht Hl.
    destruct (metadata_entry _ _ _ _ _ _ _ _ _ _ Hr Hf Hl)
      as (k & svg & img & Hpl & Hi & _ & Hsvg & Hrend & Hn).
    exists svg, img. repeat split; try done;
      unfold placement in Hpl; rewrite Hi in Hpl;
      destruct (pos !! k) as [[[x' y']|]|]; try done; by injection Hpl.
Qed.

Lemma X12_witness :
  exists json,
    saved_json (main demo_world demo_args) = Some json /\
    exists tool,
      (forall svg img,
         svg ∈ glob_svg demo_world (input_dir demo_args) ->
         rasterize demo_world tool svg (icon_size demo_args) = Rendered img ->
         is_Some (json_icons json !!
                    (splitext demo_world (basename demo_world svg)).1)) /\
      (forall name x y wd ht,
         json_icons json !! name = Some (x, y, wd, ht) ->
         exists svg img,
           svg ∈ glob_svg demo_world (input_dir demo_args) /\
           rasterize demo_world tool svg (icon_size demo_args) = Rendered img /\
           (splitext demo_world (basename demo_world svg)).1 = name /\
           wd = width img /\ ht = height img).
Proof.
  eexists. split; [vm_compute; reflexivity |].
  apply (X12_metadata_entries demo_world demo_args).
  vm_compute; reflexivity.
Defined.

Lemma rendered_images w tool sz svgs metas imgs (P : Image -> Prop) :
  rasterize_all w tool sz svgs [] [] = Some (metas, imgs) ->
  (forall svg img, rasterize w tool svg sz = Rendered img -> P img) ->
  Forall P imgs.
Proof.
  intros Hr HP. destruct (rasterize_all_aligned _ _ _ _ _ _ Hr) as [Hlen Hal].
  apply Forall_lookup. intros i img Hi.
  destruct (lookup_lt_is_Some_2 metas i) as [meta Hm];
    [apply lookup_lt_Some in Hi; lia |].
  destruct (Hal i meta img Hm Hi) as (svg & _ & Hrend & _). by eapply HP.
Qed.

(** X13. In the metadata that [main] writes, the rectangles of two different
    names do not overlap, padding included, provided that the rendered images
    have a positive width and height and the padding is not negative. *)
Theorem X13_metadata_rectangles_disjoint w args json n1 n2 r1 r2 :
  (forall tool svg img,
     rasterize w tool svg (icon_size args) = Rendered img -> positive_size img) ->
  0 <= padding_arg args ->
  saved_json (main w args) = Some json ->
  n1 <> n2 ->
  json_icons json !! n1 = Some r1 -> json_icons json !! n2 = Some r2 ->
  padded_disjoint (padding_arg args) r1 r2.
Proof.
  intros Hpos Hpad Hj Hn H1 H2.
  destruct (main_json _ _ _ Hj) as (tool & metas & imgs & pos & atlas & Hr & Hp & Hf & _).
  destruct (metadata_entry _ _ _ _ _ _ _ _ _ _ Hr Hf H1)
    as (k1 & svg1 & img1 & Hpl1 & Hi1 & Hm1 & _).
  destruct (metadata_entry _ _ _ _ _ _ _ _ _ _ Hr Hf H2)
    as (k2 & svg2 & img2 & Hpl2 & Hi2 & Hm2 & _).
  assert (Hk : k1 <> k2) by (intros ->; congruence).
  assert (Hne : imgs <> []) by (intros ->; done).
  destruct (pack_images_inv _ _ _ _ Hne Hp) as (W & _ & -> & _).
  apply (placements_disjoint imgs (padding_arg args) W k1 k2 r1 r2);
    [| done | done | done | done].
  eapply rendered_images; [exact Hr |]. intros svg img. apply Hpos.
Qed.

Lemma X13_witness :
  exists json,
    saved_json (main demo_world demo_args) = Some json /\
    json_icons json !! "a" = Some (1, 1, 3, 3) /\
    json_icons json !! "c" = Some (1, 5, 3, 3) /\
    padded_disjoint 1 (1, 1, 3, 3) (1, 5, 3, 3).
Proof.
  eexists. split; [vm_compute; reflexivity |].
  split; [vm_compute; reflexivity |]. split; [vm_compute; reflexivity |].
  eapply (X13_metadata_rectangles_disjoint demo_world demo_args _ "a" "c").
  - intros tool svg img. simpl.
    destruct (String.eqb svg "icons/b.svg"); [done |].
    intros [= <-]. split; reflexivity.
  - simpl. lia.
  - vm_compute; reflexivity.
  - discriminate.
  - vm_compute; reflexivity.
  - vm_compute; reflexivity.
Defined.

(** X14. Reading the atlas that [main] saved at a rectangle of the metadata
    that lies inside the atlas gives back, texel for texel, an image that was
    rendered from an SVG file of this name, provided that the rendered images
    are well-formed with a positive width and height and the padding is not
    negative. *)
Theorem X14_icon_can_be_read_back w args atlas json name x y wd ht :
  (forall tool svg img,
     rasterize w tool svg (icon_size args) = Rendered img ->
     wf_image img /\ positive_size img) ->
  0 <= padding_arg args ->
  saved_atlas (main w args) = Some atlas ->
  saved_json (main w args) = Some json ->
  json_icons json !! name = Some (x, y, wd, ht) ->
  inside atlas (x, y, wd, ht) ->
  exists tool svg img,
    svg ∈ glob_svg w (input_dir args) /\
    rasterize w tool svg (icon_size args) = Rendered img /\
    (splitext w (basename w svg)).1 = name /\
    pixels (crop atlas x y wd ht) = pixels img.
Proof.
  intros Himg Hpad Ha Hj Hl Hin.
  destruct (main_json _ _ _ Hj)
    as (tool & metas & imgs & pos & atlas' & Hr & Hp & Hf & Ha').
  rewrite Ha in Ha'. injection Ha' as <-.
  destruct (metadata_entry _ _ _ _ _ _ _ _ _ _ Hr Hf Hl)
    as (k & svg & img & Hpl & Hi & _ & Hsvg & Hrend & Hn).
  exists tool, svg, img. repeat split; try done.
  assert (Hsz : wd = width img /\ ht = height img).
  { unfold placement in Hpl. rewrite Hi in Hpl.
    destruct (pos !! k) as [[[x' y']|]|]; try done. by injection Hpl. }
  destruct Hsz as [-> ->].
  apply (roundtrip_when_inside imgs (padding_arg args) atlas pos k img x y);
    try done.
  - eapply rendered_images; [exact Hr |]. intros s i Hs. by apply (Himg tool s i).
  - eapply rendered_images; [exact Hr |]. intros s i Hs. by apply (Himg tool s i).
Qed.

Lemma X14_witness :
  exists atlas json,
    saved_atlas (main demo_world demo_args) = Some atlas /\
    saved_json (main demo_world demo_args) = Some json /\
    exists tool svg img,
      svg ∈ glob_svg demo_world (input_dir demo_args) /\
      rasterize demo_world tool svg (icon_size demo_args) = Rendered img /\
      (splitext demo_world (basename demo_world svg)).1 = "c" /\
      pixels (crop atlas 1 5 3 3) = pixels img.
Proof.
  do 2 eexists. split; [vm_compute; reflexivity |].
  split; [vm_compute; reflexivity |].
  eapply (X14_icon_can_be_read_back demo_world demo_args _ _ "c" 1 5 3 3).
  - intros tool svg img. simpl.
    destruct (String.eqb svg "icons/b.svg"); [done |].
    intros [= <-]. split; [| split; reflexivity].
    repeat split; vm_compute; congruence.
  - simpl. lia.
  - vm_compute; reflexivity.
  - vm_compute; reflexivity.
  - vm_compute; reflexivity.
  - vm_compute. split; discriminate.
Defined.

(** ** The shape of the result *)

(** X15. Whenever [pack_images] returns, the list of positions has one entry
    for every image, in input order, and no entry is [None]: every image has
    a placement, with its own width and height. *)
Theorem X15_one_position_per_image images padding atlas pos :
  pack_images images padding = Ok (atlas, pos) ->
  length pos = length images /\
  forall i img, images !! i = Some img ->
    exists x y, pos !! i = Some (Some (x, y)) /\
      placement images pos i = Some (x, y, width img, height img).
Proof.
  intros Hp. destruct images as [|img0 images].
  - injection Hp as <- <-. by split.
  - destruct (pack_images_inv (img0 :: images) padding atlas pos
                ltac:(done) Hp) as (W & _ & -> & _).
    split; [apply shelf_pack_length |].
    intros i img Hi.
    destruct (shelf_pack_placed (img0 :: images) padding W i) as (x & y & Hxy);
      [by eapply lookup_lt_Some |].
    exists x, y. split; [done |]. unfold placement. by rewrite Hi, Hxy.
Qed.

Lemma X15_witness :
  exists atlas pos,
    pack_images small_input 1 = Ok (atlas, pos) /\
    length pos = length small_input /\
    forall i img, small_input !! i = Some img ->
      exists x y, pos !! i = Some (Some (x, y)) /\
        placement small_input pos i = Some (x, y, width img, height img).
Proof.
  do 2 eexists. split; [vm_compute; reflexivity |].
  eapply (X15_one_position_per_image small_input 1).
  vm_compute; reflexivity.
Defined.

Lemma round_pow2_lt_double n : 1 <= n -> round_pow2 n < 2 * n.
Proof.
  intros Hn. destruct (Z.eq_dec n 1) as [-> | Hne]; [reflexivity |].
  rewrite round_pow2_eq.
  pose proof (bit_length_pos_spec (n - 1) ltac:(lia)) as [Hlo _].
  assert (Hb1 : 1 <= bit_length (n - 1)).
  { destruct (n - 1) as [|p|p] eqn:Hp; try lia. unfold bit_length.
    pose proof (Z.log2_nonneg (Zpos p)). lia. }
  replace (bit_length (n - 1)) with (1 + (bit_length (n - 1) - 1)) by lia.
  rewrite Z.pow_add_r by lia. change (2 ^ 1) with 2. lia.
Qed.

Lemma round_pow2_fixed n : is_pow2 n -> round_pow2 n = n.
Proof.
  intros Hpow. pose proof Hpow as (k & Hk & ->).
  pose proof (Z.pow_pos_nonneg 2 k ltac:(lia) Hk) as Hpos.
  destruct (round_pow2_smallest (2 ^ k) ltac:(lia)) as (_ & Hge & Hmin).
  specialize (Hmin (2 ^ k) Hpow ltac:(lia)). lia.
Qed.

(** X16. The side of the sheet that [pack_images] returns is not below the
    realized extent [max(W, H)] and below twice this extent; it is the
    estimated width [W] itself whenever the realized height [H] is not above
    [W]. *)
Theorem X16_sheet_side_bounds images padding atlas pos W :
  images <> [] ->
  pack_images images padding = Ok (atlas, pos) ->
  estimate_width images padding = Ok W ->
  let st := shelf_pack images padding W in
  let H := current_y st + row_height st + padding in
  Z.max W H <= width atlas < 2 * Z.max W H /\
  (H <= W -> width atlas = W).
Proof.
  intros Hne Hp HW st H.
  destruct (pack_images_sheet_size _ _ _ _ _ Hne Hp HW) as [Hw _].
  destruct (estimate_width_pos _ _ _ HW) as [Hpow HW1].
  rewrite Hw. fold st. unfold final_size. fold H.
  destruct (round_pow2_smallest (Z.max W H) ltac:(lia)) as (_ & Hge & _).
  pose proof (round_pow2_lt_double (Z.max W H) ltac:(lia)) as Hlt.
  split; [lia |]. intros HHW.
  replace (Z.max W H) with W by lia. by apply round_pow2_fixed.
Qed.

Lemma X16_witness :
  exists atlas pos,
    pack_images small_input 1 = Ok (atlas, pos) /\
    let st := shelf_pack small_input 1 8 in
    let H := current_y st + row_height st + 1 in
    Z.max 8 H <= width atlas < 2 * Z.max 8 H /\
    (H <= 8 -> width atlas = 8).
Proof.
  do 2 eexists. split; [vm_compute; reflexivity |].
  eapply (X16_sheet_side_bounds small_input 1 _ _ 8).
  - discriminate.
  - vm_compute; reflexivity.
  - vm_compute; reflexivity.
Defined.
